(** * Movie scrollytelling front-end: aggregation, ranking and view-state logic

  A shallow embedding of the data-deriving parts of the Svelte components
  ([Scroll], [RankedLine], [GenreHeatmap], [RankBar], the page of the
  scrolly and the 3D bar scene), with the properties the specification
  states about them and further properties of the code.

  Conventions of the embedding.
  - A JavaScript array is a [list]; [Array.prototype.filter], [flatMap] and
    [map] are [filter], [flat_map] and [map].
  - Counts ([v.length]) are [nat]; years, scores, scroll offsets and
    comparator results are [Z]; the coordinates of element rectangles are
    [Q].  The numbers met here are small integers and binary fractions, on
    which IEEE doubles are exact.
  - A [Map] or [Set] of JavaScript (and d3's [InternMap]) iterates in
    insertion order: it is a list of entries in the order of first
    insertion.  A plain object used as a dictionary is a [gmap]. *)

From Stdlib Require Import ZArith QArith Qabs Qminmax Lia Ascii String.
From stdpp Require Import base decidable list sorting strings pretty gmap.

Local Open Scope Z_scope.

(** ** JavaScript and d3 primitives *)

Module JS.

Section Sort.
Context {A : Type}.

(** [Array.prototype.sort(cmp)] is stable: [x] is placed before the first
    element it does not have to follow.  [sort_insert] keeps [x], which
    stood before every element of [l] in the input, ahead of its ties. *)
Fixpoint sort_insert (cmp : A → A → Z) (x : A) (l : list A) : list A :=
  match l with
  | [] => [x]
  | y :: l' =>
      if decide (cmp x y ≤ 0) then x :: y :: l' else y :: sort_insert cmp x l'
  end.

Definition sort (cmp : A → A → Z) (l : list A) : list A :=
  foldr (sort_insert cmp) [] l.
End Sort.

Section SetOf.
Context {A : Type} `{EqDecision A}.

(** [set.add(x)]: a [Set] keeps the position of the first insertion. *)
Definition set_add (s : list A) (x : A) : list A :=
  if decide (x ∈ s) then s else s ++ [x].

(** [Array.from(new Set(l))], the set filled in the order of [l]. *)
Definition set_of (l : list A) : list A := foldl set_add [] l.
End SetOf.


(** The white space [parseInt] skips (tab, line feed, vertical tab, form
    feed, carriage return, space). *)
Definition is_white_space (c : ascii) : bool :=
  match nat_of_ascii c with
  | 9%nat | 10%nat | 11%nat | 12%nat | 13%nat | 32%nat => true
  | _ => false
  end.

Fixpoint trim_start (s : string) : string :=
  match s with
  | String c s' => if is_white_space c then trim_start s' else s
  | EmptyString => s
  end.

(** The value of a digit, for radixes up to 36. *)
Definition digit_value (c : ascii) : option Z :=
  let n := Z.of_nat (nat_of_ascii c) in
  if (48 <=? n) && (n <=? 57) then Some (n - 48)
  else if (97 <=? n) && (n <=? 122) then Some (n - 87)
  else if (65 <=? n) && (n <=? 90) then Some (n - 55)
  else None.

(** The value of the longest prefix of digits of the radix; [acc] is the
    value read so far, [None] when no digit has been read. *)
Fixpoint digits (radix : Z) (s : string) (acc : option Z) : option Z :=
  match s with
  | String c s' =>
      match digit_value c with
      | Some d =>
          if d <? radix then digits radix s' (Some (default 0 acc * radix + d))
          else acc
      | None => acc
      end
  | EmptyString => acc
  end.

(** [parseInt(s)] with no radix: leading white space is skipped, a sign
    is read, [0x] selects radix 16, and the longest prefix of digits is the
    value; [None] is [NaN] (no digit at all). *)
Definition parseInt (s : string) : option Z :=
  let s := trim_start s in
  let '(sign, s) :=
    match s with
    | String "-" s' => (-1, s')
    | String "+" s' => (1, s')
    | _ => (1, s)
    end in
  let '(radix, s) :=
    match s with
    | String "0" (String "x" s') | String "0" (String "X" s') => (16, s')
    | _ => (10, s)
    end in
  (λ n, sign * n) <$> digits radix s None.



(** [s.split(sep)] for a separator of one character: the pieces between
    the separators, [[s]] when there is none. *)
Fixpoint split (sep : ascii) (s : string) : list string :=
  match s with
  | String c s' =>
      if decide (c = sep) then EmptyString :: split sep s'
      else
        match split sep s' with
        | piece :: pieces => String c piece :: pieces
        | [] => [String c EmptyString]
        end
  | EmptyString => [EmptyString]
  end.

End JS.

Module D3.

Section Group.
Context {K V : Type} `{EqDecision K}.

(** One step of [d3.group]: [groups.get(key)] then [push], or [set] of a
    fresh singleton group at the end of the map. *)
Fixpoint group_push (k : K) (v : V) (groups : list (K * list V))
  : list (K * list V) :=
  match groups with
  | [] => [(k, [v])]
  | (k', vs) :: rest =>
      if decide (k = k') then (k', vs ++ [v]) :: rest
      else (k', vs) :: group_push k v rest
  end.

(** [d3.group(values, key)] as the entries of the resulting map. *)
Definition group (key : V → K) (values : list V) : list (K * list V) :=
  foldl (λ groups v, group_push (key v) v groups) [] values.

(** [d3.rollup(values, reduce, key)]. *)
Definition rollup {R : Type} (reduce : list V → R) (key : V → K)
    (values : list V) : list (K * R) :=
  map (λ kv, (kv.1, reduce kv.2)) (group key values).
End Group.

(** [d3.max(values)]: the greatest value, [None] ([undefined]) when there is
    none. *)
Definition max (values : list Z) : option Z :=
  foldl
    (λ max value,
       match max with
       | None => Some value
       | Some m => if m <? value then Some value else max
       end)
    None values.

(** [d3.min(values)] *)
Definition min (values : list Z) : option Z :=
  foldl
    (λ min value,
       match min with
       | None => Some value
       | Some m => if value <? m then Some value else min
       end)
    None values.

End D3.

(** ** Records *)

Module Types.

(** Modelled from the spec: the declaration of [TMovie] (src/types.ts) is not
    among the sources; the fields are those the loader of the A3 page builds
    from a CSV row: a title, the genre list ([row.genres.split(",")]), the
    year and three numeric columns.  The loader stores the year as
    [new Date(row.year)]; a date is represented by the calendar year it
    stands for, which is what [getFullYear()] returns and what orders and
    identifies the keys d3 interns for dates.  An invalid date (a year that
    is [NaN]) has no representation: the properties below are about records
    that have a year. *)
Record TMovie := {
  primary_title : string;
  genres : list string;
  year : Z;
  average_rating : Q;
  num_votes : Z;
  runtime_minutes : Z
}.

End Types.
Import Types.

Definition getFullYear (m : TMovie) : Z := year m.

(** [{ genre, count }], the aggregation entry shared by the charts. *)
Record Datum := { genre : string; count : nat }.

(** The number of occurrences of a label in a flattened label list. *)
Definition occurrences (g : string) (labels : list string) : nat :=
  length (filter (λ x, x = g) labels).

(** [movies.forEach(m => m.genres.forEach(g => allGenres.add(g)))], the set
    from which [RankedLine] and [GenreHeatmap] derive their [genres]. *)
Definition allGenres (movies : list TMovie) : list string :=
  foldl (λ allGenres m, foldl JS.set_add allGenres (genres m)) [] movies.

(** [(a, b) => b.count - a.count], the comparator of every ranking. *)
Definition by_count_desc (a b : Datum) : Z :=
  Z.of_nat (count b) - Z.of_nat (count a).

(** [d3.rollup(labels, v => v.length, d => d)] read through
    [Array.from(map, ([g, c]) => ({ genre: g, count: c }))]: the idiom by
    which [Scroll] and [RankedLine] count the labels of a slice. *)
Definition genre_counts (labels : list string) : list Datum :=
  map (λ gc, {| genre := gc.1; count := gc.2 |})
      (D3.rollup (length : list string → nat) (λ d, d) labels).

(** ** Scroll.svelte: the two tallies *)

Module Scroll.

Definition aggregateYear (movies : list TMovie) (year : Z) : list Datum :=
  if (length movies =? 0)%nat || (year =? 0) then []
  else
    JS.sort by_count_desc
      (genre_counts
         (flat_map genres
            (filter (λ m, getFullYear m = year) movies))).

Definition aggregateYearRange (movies : list TMovie) (endYear : Z)
  : list Datum :=
  if (length movies =? 0)%nat || (endYear =? 0) then []
  else
    let startYear := endYear - 10 in
    JS.sort by_count_desc
      (genre_counts
         (flat_map genres
            (filter (λ m, startYear ≤ getFullYear m ∧ getFullYear m ≤ endYear)
               movies))).

(** A [.step] element as the tracker reads it: the top and the height of
    its [getBoundingClientRect()] and the text of its [.year] header, when
    it has one.  Pixel coordinates are rationals. *)
Module DOMRect.
Record t := { top : Q; height : Q }.
End DOMRect.

Record Step := { rect : DOMRect.t; yearHeader : option string }.

(** [Math.abs(stepMiddle - viewportMiddle)] *)
Definition distance (innerHeight : Q) (step : Step) : Q :=
  let viewportMiddle := (innerHeight / 2)%Q in
  let stepMiddle :=
    (DOMRect.top (rect step) + DOMRect.height (rect step) / 2)%Q in
  Qabs (stepMiddle - viewportMiddle)%Q.

(** The body of [steps.forEach]; the state is [closestStep] ([null] at
    first) and [closestDistance], where [None] is [Infinity]. *)
Definition closer (innerHeight : Q) (st : option Step * option Q)
    (step : Step) : option Step * option Q :=
  let distance := distance innerHeight step in
  match st.2 with
  | None => (Some step, Some distance)
  | Some closestDistance =>
      if Qlt_le_dec distance closestDistance
      then (Some step, Some distance)
      else st
  end.

Definition closestStep (innerHeight : Q) (steps : list Step) : option Step :=
  (foldl (closer innerHeight) (None, None) steps).1.

(** [parseInt(yearHeader.textContent || '0')] of a step with a header. *)
Definition step_year (step : Step) : option Z :=
  text ← yearHeader step;
  JS.parseInt (if decide (text = EmptyString) then "0"%string else text).

(** [findVisibleYear()], as a function of what it reads (the window height,
    the steps in document order, [currentYear]) to the new [currentYear]. *)
Definition findVisibleYear (innerHeight : Q) (steps : list Step)
    (currentYear : Z) : Z :=
  if (length steps =? 0)%nat then currentYear
  else
    match closestStep innerHeight steps with
    | Some step =>
        match yearHeader step with
        | Some text =>
            match JS.parseInt
                    (if decide (text = EmptyString) then "0"%string else text)
            with
            | Some newYear =>
                if decide (newYear ≠ currentYear) then newYear else currentYear
            | None => currentYear
            end
        | None => currentYear
        end
    | None => currentYear
    end.

(** [([a], [b]) => a - b] on two groups of [d3.groups]. *)
Definition by_group_year (a b : Z * list TMovie) : Z := a.1 - b.1.

(** [moviesByYear]: the groups of the records by year, in the order of the
    years.  A year is a number here, so [.filter(([year]) => !isNaN(year))]
    keeps every group. *)
Definition moviesByYear (movies : list TMovie) : list (Z * list TMovie) :=
  if (length movies =? 0)%nat then []
  else
    let groups := D3.group getFullYear movies in
    JS.sort by_group_year groups.

Definition years (movies : list TMovie) : list Z :=
  map fst (moviesByYear movies).

(** The start of the effect that sets up the observer: it returns at once
    without records or while [container] or [storySection] is not bound;
    else [currentYear], when it is still 0, becomes [years[0]]. *)
Definition initialYear (movies : list TMovie) (container storySection : bool)
    (currentYear : Z) : Z :=
  if (length movies =? 0)%nat || negb container || negb storySection
  then currentYear
  else if (0 <? length (years movies))%nat && (currentYear =? 0)
  then years movies !!! 0%nat
  else currentYear.

End Scroll.

(** ** The page of the scrolly: one step per year *)

Module Page.

(** The [.step] blocks under [{#if movies.length}], one per group of
    [d3.groups(movies, d => d.year.getFullYear()).sort(([a], [b]) => a - b)]. *)
Definition groups (movies : list TMovie) : list (Z * list TMovie) :=
  if (length movies =? 0)%nat then []
  else JS.sort Scroll.by_group_year (D3.group getFullYear movies).

(** The text of [<h3 class="year">{year}</h3>]: the decimal numeral of the
    year. *)
Definition yearHeader (year : Z) : string := pretty year.

(** The steps as the tracker reads them, given the rectangles of the blocks
    in document order. *)
Definition steps (movies : list TMovie) (rects : list Scroll.DOMRect.t)
  : list Scroll.Step :=
  zip_with
    (λ yg rect, {| Scroll.rect := rect;
                   Scroll.yearHeader := Some (yearHeader yg.1) |})
    (groups movies) rects.

End Page.

(** *** The tallies as the specification words them *)

(** The category labels of the records of one year, flattened. *)
Definition labels_of_year (movies : list TMovie) (y : Z) : list string :=
  flat_map genres (filter (λ m, year m = y) movies).

(** The category labels of the records of the window [[y - 10, y]]. *)
Definition labels_of_window (movies : list TMovie) (y : Z) : list string :=
  flat_map genres (filter (λ m, y - 10 ≤ year m ∧ year m ≤ y) movies).

(** [t] is a tally of [labels]: one entry per distinct label, each with the
    number of occurrences of its label, in non-increasing order of count. *)
Definition is_tally_of (labels : list string) (t : list Datum) : Prop :=
  NoDup (map genre t)
  ∧ (∀ g, g ∈ map genre t ↔ g ∈ labels)
  ∧ (∀ d, d ∈ t → count d = occurrences (genre d) labels)
  ∧ Sorted (λ a b, (count b ≤ count a)%nat) t.

(** A record with only the fields the charts read. *)
Definition movie (y : Z) (gs : list string) : TMovie :=
  {| primary_title := EmptyString; genres := gs; year := y;
     average_rating := 0; num_votes := 0; runtime_minutes := 0 |}.

(** ** RankedLine.svelte: cumulative top-three trajectories *)

Module RankedLine.

(** An entry of [top3]: [{ ...s, rank: i + 1 }]. *)
Record Ranked := { entry : Datum; rank : Z }.

Module YearData.
Record t := { year : Z; top3 : list Ranked }.
End YearData.

Module Point.
Record t := { year : Z; cumulative : Z }.
End Point.

(** The body of the [map] over [yearGroups.entries()]: count the labels of
    the group, sort by count, keep three, number them from 1. *)
Definition top3_of (group : list TMovie) : list Ranked :=
  let flatGenres := flat_map genres group in
  let counts := genre_counts flatGenres in
  let sorted := take 3 (JS.sort by_count_desc counts) in
  imap (λ i s, {| entry := s; rank := Z.of_nat i + 1 |}) sorted.

(** [(a, b) => a.year - b.year] *)
Definition by_year_asc (a b : YearData.t) : Z :=
  YearData.year a - YearData.year b.

Definition yearData_of (movies : list TMovie) : list YearData.t :=
  JS.sort by_year_asc
    (map (λ yg, {| YearData.year := yg.1; YearData.top3 := top3_of yg.2 |})
         (D3.group year movies)).

(** [yd.top3.find(t => t.genre === genre)] *)
Definition find_genre (genre0 : string) (top3 : list Ranked) : option Ranked :=
  List.find (λ t, bool_decide (genre (entry t) = genre0)) top3.

(** The body of [yearData.forEach] inside the [map] over the genres: the
    state is the running [cumulative] and the [trajectory] built so far. *)
Definition trajectory_step (genre0 : string)
    (st : Z * list Point.t) (yd : YearData.t) : Z * list Point.t :=
  let cumulative :=
    match find_genre genre0 (YearData.top3 yd) with
    | Some e => st.1 + (4 - rank e)
    | None => st.1
    end in
  (cumulative,
   st.2 ++ [{| Point.year := YearData.year yd;
               Point.cumulative := cumulative |}]).

Definition trajectory (yearData : list YearData.t) (genre0 : string)
  : list Point.t :=
  (foldl (trajectory_step genre0) (0, []) yearData).2.

(** The derived [genres]: [Array.from(allGenres)]. *)
Definition genres (movies : list TMovie) : list string := allGenres movies.

Record ProcessedData := {
  yearData : list YearData.t;
  genreTrajectories : list (list Point.t);
  years : list Z
}.

Definition processedData (movies : list TMovie) : ProcessedData :=
  if (length movies =? 0)%nat then
    {| yearData := []; genreTrajectories := []; years := [] |}
  else
    let yearData := yearData_of movies in
    {| yearData := yearData;
       genreTrajectories := map (trajectory yearData) (genres movies);
       years := map YearData.year yearData |}.

(** The domain of [xScale]: [[d3.min(years) ?? 1980, d3.max(years) ?? 2023]],
    and [[1980, 2023]] when there is no year. *)
Definition xDomain (movies : list TMovie) : Z * Z :=
  let years := years (processedData movies) in
  if (length years =? 0)%nat then (1980, 2023)
  else
    let minYear := default 1980 (D3.min years) in
    let maxYear := default 2023 (D3.max years) in
    (minYear, maxYear).


(** An entry of [labelData].  [color] is the index of the colour in
    [d3.schemeCategory10]; [labelY] is unset until the spacing pass. *)
Module Label.
Record t := {
  genre : string;
  lineX : Q;
  lineY : Q;
  cumulative : Z;
  color : nat;
  labelY : option Q
}.
End Label.

(** The labels of the last points, sorted by [b.cumulative - a.cumulative].
    The two scales are the derived [xScale] and [yScale]; the ordinal colour
    scale over the ten colours gives the genre of index [idx] the colour
    [idx % 10]. *)
Definition labelData (xScale yScale : Z → Q) (movies : list TMovie)
  : list Label.t :=
  JS.sort (λ a b, Label.cumulative b - Label.cumulative a)
    (omap id
       (imap
          (λ idx trajectory,
             match last trajectory with
             | None => None
             | Some last =>
                 Some {| Label.genre := genres movies !!! idx;
                         Label.lineX := xScale (Point.year last);
                         Label.lineY := yScale (Point.cumulative last);
                         Label.cumulative := Point.cumulative last;
                         Label.color := (idx mod 10)%nat;
                         Label.labelY := None |}
             end)
          (genreTrajectories (processedData movies)))).

(** [Math.max(5, labelData[Math.min(7, labelData.length - 1)]?.cumulative
    || 0)]: the index is [-1] on an empty array, where the read gives
    [undefined]. *)
Definition threshold (labelData : list Label.t) : Z :=
  let i := Z.min 7 (Z.of_nat (length labelData) - 1) in
  let d := if i <? 0 then None else labelData !! Z.to_nat i in
  Z.max 5 (default 0 (Label.cumulative <$> d)).

(** [(a, b) => a.lineY - b.lineY]: the sort reads the sign of the
    difference. *)
Definition by_lineY (a b : Label.t) : Z :=
  Z.sgn (Qnum (Label.lineY a - Label.lineY b)%Q).

Definition minSpacing : Q := 12.

(** The spacing pass, [significantLabels.forEach((d, i) => ...)]:
    [previous] is [significantLabels[i - 1].labelY], [None] at [i = 0]. *)
Fixpoint adjust (previous : option Q) (labels : list Label.t)
  : list Label.t :=
  match labels with
  | [] => []
  | d :: rest =>
      let labelY :=
        match previous with
        | None => Label.lineY d
        | Some y => Qmax (Label.lineY d) (y + minSpacing)%Q
        end in
      {| Label.genre := Label.genre d;
         Label.lineX := Label.lineX d;
         Label.lineY := Label.lineY d;
         Label.cumulative := Label.cumulative d;
         Label.color := Label.color d;
         Label.labelY := Some labelY |}
      :: adjust (Some labelY) rest
  end.

(** The labels the drawing effect places once the [svg] element is bound:
    none when it returns at its guard (no record, no year), else the entries
    of [labelData] that reach the threshold, sorted by [lineY] and spaced. *)
Definition significantLabels (xScale yScale : Z → Q) (movies : list TMovie)
  : list Label.t :=
  if (length movies =? 0)%nat
     || (length (yearData (processedData movies)) =? 0)%nat
  then []
  else
    let labelData := labelData xScale yScale movies in
    let threshold := threshold labelData in
    adjust None
      (JS.sort by_lineY
         (filter (λ d, threshold ≤ Label.cumulative d) labelData)).

End RankedLine.

(** ** GenreHeatmap.svelte: the co-occurrence matrix *)

Module GenreHeatmap.

(** The default comparator of [Array.prototype.sort()]: strings compared by
    code units (bytes here, the same order on ASCII labels). *)
Definition by_code_units (a b : string) : Z :=
  match String.compare a b with
  | Lt => -1
  | Eq => 0
  | Gt => 1
  end.

(** The derived [genres]: [Array.from(allGenres).sort()]. *)
Definition genres (movies : list TMovie) : list string :=
  JS.sort by_code_units (allGenres movies).










(** The values pushed by the two loops over [Object.values] (the order of
    the enumeration does not matter to their maximum). *)
Definition values (matrix : gmap string (gmap string Z)) : list Z :=
  flat_map (λ row : gmap string Z, map snd (map_to_list row))
    (map snd (map_to_list matrix)).


End GenreHeatmap.

(** ** RankBar.svelte: the keyed join and its transitions *)

(** The chart is a list of [g.bar] elements in document order.  d3 is not
    part of the repository; [draw] is embedded over the documented behaviour
    of [selection.data(data, key)], [enter], [exit], [append] and of
    [transition.delay], [duration] and [remove]: a transition created at time
    [now] starts at [now + delay] and ends [duration] later, and [remove]
    takes the element out of the document when its exit transition ends.
    Times are milliseconds. *)
Module RankBar.

(** [[...data].sort((a, b) => b.count - a.count)] *)
Definition ranked (data : list Datum) : list Datum :=
  JS.sort by_count_desc data.

(** A bar of the chart: the datum bound to it, and the time at which a
    running exit transition will remove it, if one runs. *)
Record Bar := { datum : Datum; removal : option Z }.

(** The selections of [draw] and the elements its transitions animate. *)
Inductive Selection := Enter | Update | Exit.
Inductive Element := G | Rect | ValueText.

Record Transition := {
  bar : string;
  selection : Selection;
  element : Element;
  delay : Z;
  duration : Z
}.

(** [d => d.genre] *)
Definition key (d : Datum) : string := genre d.

(** The bar is still in the document at time [now]. *)
Definition in_document (now : Z) (b : Bar) : bool :=
  match removal b with
  | None => true
  | Some t => now <? t
  end.

(** [chart.selectAll("g.bar")] at time [now]. *)
Definition selectAll (now : Z) (bars : list Bar) : list Bar :=
  filter (λ b, in_document now b = true) bars.

(** [nodeByKeyValue.get(k)] before any datum is bound: the first bar of
    key [k], with its position (later bars of the same key are not in the
    map and go to the exit selection). *)
Definition first_bar (k : string) (group : list Bar) : option (nat * Bar) :=
  list_find (λ b, key (datum b) = k) group.

(** The second loop of d3's keyed bind: a datum joins the first bar of its
    key unless an earlier datum has taken the key out of the map; [taken]
    are the keys looked up so far. *)
Fixpoint join (group : list Bar) (taken : list string) (data : list Datum)
  : list (Datum * option nat) :=
  match data with
  | [] => []
  | d :: data' =>
      (d, if decide (key d ∈ taken) then None
          else fst <$> first_bar (key d) group)
      :: join group (key d :: taken) data'
  end.

(** The entering data, each with the position of the update bar that
    follows it in data order (the [_next] of its enter node). *)
Definition entering (joined : list (Datum * option nat))
  : list (Datum * option nat) :=
  (foldr
     (λ dm st,
        match dm.2 with
        | Some p => (Some p, st.2)
        | None => (st.1, (dm.1, st.1) :: st.2)
        end)
     (None, []) joined).2.

(** The datum bound to the bar at position [p], when one joins it. *)
Definition bound (joined : list (Datum * option nat)) (p : nat)
  : option Datum :=
  fst <$> List.find (λ dm, bool_decide (dm.2 = Some p)) joined.

(** A bar after the join: rebound and kept when a datum joins it (its
    update transition supersedes a running exit), else exiting, removed
    when the exit transition of 300 ms ends. *)
Definition rebind (now : Z) (joined : list (Datum * option nat)) (p : nat)
    (b : Bar) : Bar :=
  match bound joined p with
  | Some d => {| datum := d; removal := None |}
  | None => {| datum := datum b; removal := Some (now + 300) |}
  end.

(** [parent.insertBefore(child, next)]: before the bar of position [next],
    at the end of the chart when there is none. *)
Fixpoint insert_before (next : option nat) (x : option nat * Bar)
    (dom : list (option nat * Bar)) : list (option nat * Bar) :=
  match dom with
  | [] => [x]
  | y :: dom' =>
      if decide (is_Some next ∧ y.1 = next) then x :: y :: dom'
      else y :: insert_before next x dom'
  end.

(** The three transitions [draw] creates for a bar of a selection: on the
    group, on its [rect] and on its [text.value]. *)
Definition bar_transitions (sel : Selection) (delay0 duration0 : Z)
    (d : Datum) : list Transition :=
  map (λ el, {| bar := key d; selection := sel; element := el;
                delay := delay0; duration := duration0 |})
      [G; Rect; ValueText].

Record Drawn := {
  dom : list Bar;
  enter : list Datum;
  update : list Datum;
  exit : list Bar;
  transitions : list Transition
}.

Definition draw (now : Z) (bars : list Bar) (data : list Datum) : Drawn :=
  let group := selectAll now bars in
  let joined := join group [] data in
  let enter := entering joined in
  let update := omap (λ dm, match dm.2 with
                            | Some _ => Some dm.1
                            | None => None
                            end) joined in
  let exit := omap (λ pb, match bound joined pb.1 with
                          | Some _ => None
                          | None => Some pb.2
                          end) (imap pair group) in
  let dom0 := imap (λ p b, (Some p, rebind now joined p b)) group in
  let dom1 :=
    foldl (λ dom e, insert_before e.2
                      (None, {| datum := e.1; removal := None |}) dom)
      dom0 enter in
  {| dom := map snd dom1;
     enter := map fst enter;
     update := update;
     exit := exit;
     transitions :=
       flat_map (bar_transitions Update 0 600) update
       ++ flat_map (bar_transitions Enter 600 400) (map fst enter)
       ++ map (λ b, {| bar := key (datum b); selection := Exit; element := G;
                       delay := 0; duration := 300 |}) exit |}.

(** The [$effect]: every change of [data] draws the ranked data. *)
Definition render (now : Z) (bars : list Bar) (data : list Datum) : Drawn :=
  draw now bars (ranked data).

(** The domain of the scale [x] of the bars' widths:
    [[0, d3.max(ranked, d => d.count) ?? 0]]. *)
Definition xDomain (data : list Datum) : Z * Z :=
  (0, default 0 (D3.max (map (λ d, Z.of_nat (count d)) (ranked data)))).

End RankBar.

(** ** The 3D bar scene: horizontal scrolling *)

Module BarScene.

(** The scrolling variables of the page. *)
Record State := {
  scrollOffset : Z;
  maxScroll : Z;
  isDragging : bool;
  previousMouseX : Z
}.

Definition initial : State :=
  {| scrollOffset := 0; maxScroll := 0; isDragging := false;
     previousMouseX := 0 |}.

(** What reaches the scrolling variables: the four mouse listeners of the
    container, the [keydown] listener of the window, and the font loader's
    callback, which calls [createBars]. *)
Inductive Event :=
  | MouseDown (clientX : Z)
  | MouseMove (clientX : Z)
  | MouseUp
  | MouseLeave
  | KeyDown (key : string)
  | FontLoaded.

(** [createBars]: [sortedGenres] holds every key of [movieData] once, so
    its length is the size of the mapping. *)
Definition createBars (movieData : gmap string Z) (s : State) : State :=
  let barSpacing := 150 in
  let totalWidth := Z.of_nat (size movieData) * barSpacing in
  let viewportWidth := 1200 in
  {| scrollOffset := scrollOffset s;
     maxScroll := totalWidth - viewportWidth;
     isDragging := isDragging s;
     previousMouseX := previousMouseX s |}.

Definition mousedown (clientX : Z) (s : State) : State :=
  {| scrollOffset := scrollOffset s; maxScroll := maxScroll s;
     isDragging := true; previousMouseX := clientX |}.

Definition mousemove (clientX : Z) (s : State) : State :=
  if isDragging s then
    let deltaX := clientX - previousMouseX s in
    let scrollOffset1 := scrollOffset s - deltaX * 5 in
    let scrollOffset2 := Z.max 0 (Z.min scrollOffset1 (maxScroll s)) in
    {| scrollOffset := scrollOffset2; maxScroll := maxScroll s;
       isDragging := isDragging s; previousMouseX := clientX |}
  else s.

(** [mouseup] and [mouseleave] *)
Definition release (s : State) : State :=
  {| scrollOffset := scrollOffset s; maxScroll := maxScroll s;
     isDragging := false; previousMouseX := previousMouseX s |}.

Definition keydown (key : string) (s : State) : State :=
  if decide (key = "ArrowLeft"%string) then
    let scrollOffset1 := scrollOffset s - 150 in
    {| scrollOffset := Z.max 0 scrollOffset1; maxScroll := maxScroll s;
       isDragging := isDragging s; previousMouseX := previousMouseX s |}
  else if decide (key = "ArrowRight"%string) then
    let scrollOffset1 := scrollOffset s + 150 in
    {| scrollOffset := Z.min scrollOffset1 (maxScroll s);
       maxScroll := maxScroll s;
       isDragging := isDragging s; previousMouseX := previousMouseX s |}
  else s.

Definition step (movieData : gmap string Z) (s : State) (e : Event) : State :=
  match e with
  | MouseDown x => mousedown x s
  | MouseMove x => mousemove x s
  | MouseUp | MouseLeave => release s
  | KeyDown k => keydown k s
  | FontLoaded => createBars movieData s
  end.

(** The scrolling variables after a sequence of events. *)
Definition run (movieData : gmap string Z) (events : list Event) : State :=
  foldl (step movieData) initial events.

(** The hard-coded mapping that replaces a dataset that failed to load. *)
Definition fallback : gmap string Z :=
  list_to_map
    [("Action"%string, 25); ("Comedy"%string, 18); ("Drama"%string, 15);
     ("Horror"%string, 12); ("Sci-Fi"%string, 20); ("Animation"%string, 10)].






End BarScene.

(** *** The co-occurrence counts as the specification words them *)




(** *** The trajectories as the specification words them *)

(** The genres of year [y] ranked by their occurrence count in that year. *)
Definition year_ranking (movies : list TMovie) (y : Z) : list Datum :=
  JS.sort by_count_desc (genre_counts (labels_of_year movies y)).

(** The score a ranking awards to [g]: 3, 2, 1 for the ranks 1, 2, 3 (the
    positions 0, 1, 2 of the ranking), 0 otherwise. *)
Definition award (ranking : list Datum) (g : string) : Z :=
  match fst <$> list_find (λ d, genre d = g) ranking with
  | Some 0%nat => 3
  | Some 1%nat => 2
  | Some 2%nat => 1
  | _ => 0
  end.

(** The sum of the awards of [g] over the years [ys]. *)
Definition score (movies : list TMovie) (g : string) (ys : list Z) : Z :=
  foldr (λ y acc, award (year_ranking movies y) g + acc) 0 ys.

(** The distinct elements of a list in the order of their first
    occurrence. *)
Fixpoint distinct (l : list string) : list string :=
  match l with
  | [] => []
  | x :: l' => x :: filter (λ y, y ≠ x) (distinct l')
  end.

(** ** Auxiliary definitions

    What the statements and proofs below name besides the embedding: the
    closed forms of the loops and the invariants they keep. *)

(** The entry of key [k] when the values seen so far are [vs]. *)
Definition group_entry {K V : Type} `{EqDecision K} (key : V → K)
    (vs : list V) (k : K) : K * list V :=
  (k, filter (λ v, key v = k) vs).

(** The score a year entry adds to the running total of [g]. *)
Definition bonus (g : string) (yd : RankedLine.YearData.t) : Z :=
  match RankedLine.find_genre g (RankedLine.YearData.top3 yd) with
  | Some e => 4 - RankedLine.rank e
  | None => 0
  end.

(** The points the loop pushes from running total [c] on. *)
Fixpoint points_from (g : string) (c : Z) (yds : list RankedLine.YearData.t)
  : list RankedLine.Point.t :=
  match yds with
  | [] => []
  | yd :: rest =>
      {| RankedLine.Point.year := RankedLine.YearData.year yd;
         RankedLine.Point.cumulative := c + bonus g yd |}
      :: points_from g (c + bonus g yd) rest
  end.






(** [step] is the nearest step of [l], the first one among the nearest. *)
Definition nearest_first (innerHeight : Q) (l : list Scroll.Step) (i : nat)
    (step : Scroll.Step) : Prop :=
  l !! i = Some step
  ∧ (∀ j s, l !! j = Some s →
       (Scroll.distance innerHeight step <= Scroll.distance innerHeight s)%Q)
  ∧ (∀ j s, (j < i)%nat → l !! j = Some s →
       (Scroll.distance innerHeight step < Scroll.distance innerHeight s)%Q).

(** [maxScroll] is 0 until the bars are created and the width of the
    content beyond the viewport afterwards. *)
Definition scroll_invariant (movieData : gmap string Z) (s : BarScene.State)
  : Prop :=
  0 ≤ BarScene.scrollOffset s ≤ BarScene.maxScroll s
  ∧ (BarScene.maxScroll s = 0
     ∨ BarScene.maxScroll s = Z.of_nat (size movieData) * 150 - 1200).

(** The keys of a list of bars. *)
Definition bar_keys (bars : list RankBar.Bar) : list string :=
  map (λ b, RankBar.key (RankBar.datum b)) bars.



(** The score of [g] over all the years of the records: the value of the
    last point of its trajectory. *)
Definition final_score (movies : list TMovie) (g : string) : Z :=
  score movies g (RankedLine.years (RankedLine.processedData movies)).

(** The number of genres of the records that score strictly more than
    [g]. *)
Definition outscoring (movies : list TMovie) (g : string) : nat :=
  length (filter (λ h, final_score movies g < final_score movies h)
                 (RankedLine.genres movies)).

(** The sum of [f] over a list. *)
Definition sum_with {A : Type} (f : A → Z) (l : list A) : Z :=
  foldr (λ x acc, f x + acc) 0 l.

(** What a year with [n] distinct genres awards in all: 3 + 2 + 1 from
    three genres on. *)
Definition prize (n : nat) : Z :=
  match n with
  | 0%nat => 0
  | 1%nat => 3
  | 2%nat => 5
  | _ => 6
  end.

(** The number of distinct genres among the records of year [y]. *)
Definition genres_in_year (movies : list TMovie) (y : Z) : nat :=
  length (distinct (labels_of_year movies y)).

(** [1] when [x] is [g], else [0]. *)
Definition indicator (x g : string) : Z := if decide (x = g) then 1 else 0.




(** The width of the bars of [movieData] beyond the viewport, negative when
    the bars are narrower than the viewport. *)
Definition overflow (movieData : gmap string Z) : Z :=
  Z.of_nat (size movieData) * 150 - 1200.

(** The offset lies between 0 and the overflow, whichever is the smaller,
    and [maxScroll] is 0 or the overflow. *)
Definition scroll_bounded (movieData : gmap string Z) (s : BarScene.State)
  : Prop :=
  Z.min 0 (overflow movieData) ≤ BarScene.scrollOffset s
                               ≤ Z.max 0 (overflow movieData)
  ∧ (BarScene.maxScroll s = 0
     ∨ BarScene.maxScroll s = overflow movieData).

(** The count a tally shows for the category [g], 0 when it has no entry
    for it. *)
Definition tally_count (t : list Datum) (g : string) : nat :=
  sum_list_with (λ d, if decide (genre d = g) then count d else 0%nat) t.

(* ================================================================== *)
(** * Properties *)

(** ** Facts about the JavaScript and d3 primitives *)

Section SortFacts.
Context {A : Type} (cmp : A → A → Z).

Lemma sort_insert_Permutation (x : A) (l : list A) :
  JS.sort_insert cmp x l ≡ₚ x :: l.
Proof.
  induction l as [|y l IH]; simpl; [done|].
  case_decide; [done|]. rewrite IH. apply Permutation_swap.
Qed.

Lemma sort_Permutation (l : list A) : JS.sort cmp l ≡ₚ l.
Proof.
  induction l as [|x l IH]; simpl; [done|].
  unfold JS.sort in *. simpl. rewrite sort_insert_Permutation. by rewrite IH.
Qed.

(** A comparator that never reports both [x] after [y] and [y] after [x]
    (true of every comparator of the form [key b - key a]). *)
Hypothesis cmp_total : ∀ x y, 0 < cmp x y → cmp y x ≤ 0.

Lemma sort_insert_Sorted (x : A) (l : list A) :
  Sorted (λ a b, cmp a b ≤ 0) l →
  Sorted (λ a b, cmp a b ≤ 0) (JS.sort_insert cmp x l).
Proof.
  induction 1 as [|y l Hs IH Hhd]; simpl.
  - by repeat constructor.
  - case_decide as Hxy.
    + constructor; [by constructor|]. by constructor.
    + constructor; [done|].
      destruct Hhd as [|z l' Hyz]; simpl.
      * constructor. apply cmp_total. lia.
      * case_decide; constructor; [apply cmp_total; lia|done].
Qed.

Lemma Sorted_weaken (R1 R2 : relation A) (l : list A) :
  (∀ a b, R1 a b → R2 a b) → Sorted R1 l → Sorted R2 l.
Proof.
  intros HR. induction 1 as [|x l Hs IH Hhd]; constructor; [done|].
  destruct Hhd; constructor. by apply HR.
Qed.

Lemma sort_Sorted (l : list A) : Sorted (λ a b, cmp a b ≤ 0) (JS.sort cmp l).
Proof.
  induction l as [|x l IH]; [constructor|].
  by apply sort_insert_Sorted.
Qed.
End SortFacts.

Section SetFacts.
Context {A : Type} `{EqDecision A}.

Lemma set_of_snoc (l : list A) (x : A) :
  JS.set_of (l ++ [x]) = JS.set_add (JS.set_of l) x.
Proof. unfold JS.set_of. by rewrite foldl_app. Qed.

Lemma elem_of_set_add (s : list A) (x y : A) :
  y ∈ JS.set_add s x ↔ y ∈ s ∨ y = x.
Proof.
  unfold JS.set_add. case_decide.
  - split; [by left|]. intros [?| ->]; done.
  - rewrite elem_of_app, list_elem_of_singleton. done.
Qed.

Lemma elem_of_set_of (l : list A) (x : A) : x ∈ JS.set_of l ↔ x ∈ l.
Proof.
  induction l as [|y l IH] using rev_ind.
  - done.
  - rewrite set_of_snoc, elem_of_set_add, IH, elem_of_app,
      list_elem_of_singleton. done.
Qed.

Lemma NoDup_set_add (s : list A) (x : A) : NoDup s → NoDup (JS.set_add s x).
Proof.
  intros Hs. unfold JS.set_add. case_decide; [done|].
  apply NoDup_app. split_and!; [done| |apply NoDup_singleton].
  intros y Hy ->%list_elem_of_singleton. done.
Qed.

Lemma NoDup_set_of (l : list A) : NoDup (JS.set_of l).
Proof.
  induction l as [|y l IH] using rev_ind; [constructor|].
  rewrite set_of_snoc. by apply NoDup_set_add.
Qed.
End SetFacts.

Section GroupFacts.
Context {K V : Type} `{EqDecision K} (key : V → K).

Lemma group_snoc (vs : list V) (v : V) :
  D3.group key (vs ++ [v]) = D3.group_push (key v) v (D3.group key vs).
Proof. unfold D3.group. by rewrite foldl_app. Qed.

Lemma group_entry_snoc_ne (vs : list V) (v : V) (k : K) :
  key v ≠ k → group_entry key (vs ++ [v]) k = group_entry key vs k.
Proof.
  intros Hne. unfold group_entry.
  by rewrite filter_app, filter_cons_False, filter_nil, app_nil_r.
Qed.

Lemma group_entry_snoc_eq (vs : list V) (v : V) :
  group_entry key (vs ++ [v]) (key v) = (key v, filter (λ u, key u = key v) vs ++ [v]).
Proof.
  unfold group_entry.
  by rewrite filter_app, filter_cons_True, filter_nil.
Qed.

Lemma group_push_map_entries (vs : list V) (v : V) (ks : list K) :
  NoDup ks →
  D3.group_push (key v) v (map (group_entry key vs) ks)
  = if decide (key v ∈ ks) then map (group_entry key (vs ++ [v])) ks
    else map (group_entry key (vs ++ [v])) ks ++ [(key v, [v])].
Proof.
  induction 1 as [|k ks Hk Hnd IH]; simpl.
  - done.
  - destruct (decide (key v = k)) as [<-|Hne].
    + rewrite decide_True by left. rewrite group_entry_snoc_eq. f_equal.
      apply map_ext_in. intros k' Hk'%list_elem_of_In.
      rewrite group_entry_snoc_ne; [done|]. by intros <-.
    + rewrite IH, (group_entry_snoc_ne _ _ k) by done.
      destruct (decide (key v ∈ ks)) as [Hin|Hin].
      * rewrite decide_True by (by right). done.
      * rewrite decide_False; [done|]. by intros [?|?]%elem_of_cons.
Qed.

(** [d3.group] lists the keys in the order of their first occurrence, each
    with the values of that key in input order. *)
Lemma group_entries (vs : list V) :
  D3.group key vs = map (group_entry key vs) (JS.set_of (map key vs)).
Proof.
  induction vs as [|v vs IH] using rev_ind; [done|].
  rewrite group_snoc, IH, map_app. simpl. rewrite set_of_snoc.
  rewrite group_push_map_entries by apply NoDup_set_of.
  unfold JS.set_add. case_decide as Hin; [done|].
  rewrite map_app. simpl. rewrite group_entry_snoc_eq. do 3 f_equal.
  rewrite elem_of_set_of in Hin. clear IH.
  replace (filter (λ u, key u = key v) vs) with (@nil V); [done|].
  induction vs as [|u vs' IH']; [done|].
  rewrite filter_cons_False.
  - apply IH'. intros ?. apply Hin. simpl. by right.
  - intros Heq. apply Hin. simpl. rewrite Heq. left.
Qed.

Lemma rollup_entries {R : Type} (reduce : list V → R) (vs : list V) :
  D3.rollup reduce key vs
  = map (λ k, (k, reduce (filter (λ v, key v = k) vs)))
      (JS.set_of (map key vs)).
Proof. unfold D3.rollup. rewrite group_entries, map_map. done. Qed.
End GroupFacts.

(** ** Scroll.svelte: the single-year and trailing-window tallies *)

Lemma occurrences_app (g : string) (l1 l2 : list string) :
  occurrences g (l1 ++ l2) = (occurrences g l1 + occurrences g l2)%nat.
Proof. unfold occurrences. by rewrite filter_app, length_app. Qed.

Lemma occurrences_pos (g : string) (l : list string) :
  g ∈ l ↔ (0 < occurrences g l)%nat.
Proof.
  unfold occurrences. induction l as [|x l IH]; simpl.
  - split; [by intros ?%elem_of_nil|lia].
  - rewrite elem_of_cons. destruct (decide (x = g)) as [->|Hne].
    + rewrite filter_cons_True by done. simpl. split; [lia|by left].
    + rewrite filter_cons_False by done. rewrite <- IH.
      split; [by intros [->|?]|by right].
Qed.

Lemma genre_counts_entries (labels : list string) :
  genre_counts labels
  = map (λ g, {| genre := g; count := occurrences g labels |})
      (JS.set_of labels).
Proof.
  unfold genre_counts. rewrite rollup_entries, map_map, map_id. done.
Qed.

Lemma elem_of_genre_counts (labels : list string) (d : Datum) :
  d ∈ genre_counts labels
  ↔ genre d ∈ labels ∧ count d = occurrences (genre d) labels.
Proof.
  rewrite genre_counts_entries, list_elem_of_fmap. split.
  - intros (g & -> & Hg). rewrite elem_of_set_of in Hg. simpl. done.
  - intros [Hg Hc]. exists (genre d). rewrite elem_of_set_of.
    split; [|done]. destruct d as [g c]. simpl in *. by subst.
Qed.

Lemma by_count_desc_total (a b : Datum) :
  0 < by_count_desc a b → by_count_desc b a ≤ 0.
Proof. unfold by_count_desc. lia. Qed.

Lemma sorted_genre_counts_is_tally (labels : list string) :
  is_tally_of labels (JS.sort by_count_desc (genre_counts labels)).
Proof.
  pose proof (sort_Permutation by_count_desc
                (genre_counts labels)) as Hp.
  split_and!.
  - rewrite Hp, genre_counts_entries, map_map. simpl. rewrite map_id.
    apply NoDup_set_of.
  - intros g. rewrite Hp, genre_counts_entries, map_map. simpl.
    rewrite map_id. apply elem_of_set_of.
  - intros d. rewrite Hp, elem_of_genre_counts. tauto.
  - eapply Sorted_weaken; [|apply sort_Sorted, by_count_desc_total].
    intros a b. unfold by_count_desc. simpl. lia.
Qed.

Lemma sum_indicator (x : string) (ks : list string) :
  NoDup ks → x ∈ ks →
  sum_list_with (λ g, if decide (x = g) then 1 else 0)%nat ks = 1%nat.
Proof.
  induction 1 as [|k ks Hk Hnd IH]; [by intros ?%elem_of_nil|].
  simpl. intros Hx. destruct (decide (x = k)) as [->|Hne].
  - replace (sum_list_with _ ks) with 0%nat; [done|].
    clear IH Hnd Hx. induction ks as [|k' ks IH]; [done|]. simpl.
    rewrite decide_False; [apply IH|]; intros ?; apply Hk;
      [by right|subst; left].
  - apply elem_of_cons in Hx as [?|Hx]; [done|]. by rewrite IH.
Qed.

Lemma sum_occurrences_cons (x : string) (labels ks : list string) :
  sum_list_with (λ g, occurrences g (x :: labels)) ks
  = (sum_list_with (λ g, if decide (x = g) then 1 else 0) ks
     + sum_list_with (λ g, occurrences g labels) ks)%nat.
Proof.
  induction ks as [|k ks IHk]; [done|]. simpl.
  rewrite IHk. unfold occurrences.
  destruct (decide (x = k)) as [->|Hne].
  - rewrite filter_cons_True by done. simpl. lia.
  - rewrite filter_cons_False by done. lia.
Qed.

Lemma sum_occurrences (labels ks : list string) :
  NoDup ks → (∀ g, g ∈ labels → g ∈ ks) →
  sum_list_with (λ g, occurrences g labels) ks = length labels.
Proof.
  intros Hnd. induction labels as [|x labels IH]; intros Hks.
  - simpl. clear. induction ks as [|k ks IHk]; [done|]. simpl. done.
  - rewrite sum_occurrences_cons, IH, sum_indicator; [done..| |].
    + apply Hks. left.
    + intros g Hg. apply Hks. by right.
Qed.

Lemma tally_counts_sum (labels : list string) :
  sum_list_with count
    (JS.sort by_count_desc (genre_counts labels))
  = length labels.
Proof.
  rewrite sort_Permutation, genre_counts_entries.
  rewrite <- (sum_occurrences labels (JS.set_of labels)).
  - induction (JS.set_of labels) as [|k ks IH]; [done|]. simpl. by rewrite IH.
  - apply NoDup_set_of.
  - intros g. by rewrite elem_of_set_of.
Qed.

Lemma aggregateYear_unfold (movies : list TMovie) (y : Z) :
  y ≠ 0 →
  Scroll.aggregateYear movies y
  = JS.sort by_count_desc
      (genre_counts (labels_of_year movies y)).
Proof.
  intros Hy. unfold Scroll.aggregateYear, labels_of_year, getFullYear.
  destruct movies as [|m movies]; simpl.
  - done.
  - by rewrite (proj2 (Z.eqb_neq y 0) Hy).
Qed.

Lemma aggregateYearRange_unfold (movies : list TMovie) (y : Z) :
  y ≠ 0 →
  Scroll.aggregateYearRange movies y
  = JS.sort by_count_desc
      (genre_counts (labels_of_window movies y)).
Proof.
  intros Hy. unfold Scroll.aggregateYearRange, labels_of_window, getFullYear.
  destruct movies as [|m movies]; simpl.
  - done.
  - by rewrite (proj2 (Z.eqb_neq y 0) Hy).
Qed.

Lemma aggregateYear_zero (movies : list TMovie) :
  Scroll.aggregateYear movies 0 = [].
Proof. unfold Scroll.aggregateYear. by rewrite orb_true_r. Qed.

Lemma aggregateYearRange_zero (movies : list TMovie) :
  Scroll.aggregateYearRange movies 0 = [].
Proof. unfold Scroll.aggregateYearRange. by rewrite orb_true_r. Qed.

Lemma window_occurrences_ge (movies : list TMovie) (y : Z) (g : string) :
  (occurrences g (labels_of_year movies y)
   ≤ occurrences g (labels_of_window movies y))%nat.
Proof.
  unfold labels_of_year, labels_of_window.
  induction movies as [|m movies IH]; [done|].
  destruct (decide (year m = y)) as [Hy|Hy].
  - rewrite !filter_cons_True by lia. simpl. rewrite !occurrences_app. lia.
  - rewrite (filter_cons_False (λ m, year m = y)) by done.
    destruct (decide (y - 10 ≤ year m ∧ year m ≤ y)).
    + rewrite filter_cons_True by done. simpl. rewrite occurrences_app. lia.
    + by rewrite filter_cons_False.
Qed.

(** C2. For every record set and every target year, every (category, count)
    entry of the single-year tally has an entry of the same category in the
    trailing-window tally ending at that year (window [year - 10, year]),
    and the count of the latter is greater than or equal to it. *)
Theorem window_tally_dominates_year_tally
    (movies : list TMovie) (y : Z) (d : Datum) :
  d ∈ Scroll.aggregateYear movies y →
  ∃ d', d' ∈ Scroll.aggregateYearRange movies y
        ∧ genre d' = genre d ∧ (count d ≤ count d')%nat.
Proof.
  destruct (decide (y = 0)) as [->|Hy].
  { rewrite aggregateYear_zero. by intros ?%elem_of_nil. }
  rewrite aggregateYear_unfold, aggregateYearRange_unfold by done.
  rewrite !sort_Permutation, elem_of_genre_counts.
  intros [Hg Hc].
  exists {| genre := genre d;
            count := occurrences (genre d) (labels_of_window movies y) |}.
  rewrite sort_Permutation, elem_of_genre_counts. simpl.
  pose proof (window_occurrences_ge movies y (genre d)) as Hle.
  split_and!; [|done..|lia].
  apply occurrences_pos. apply occurrences_pos in Hg. lia.
Qed.

Lemma window_tally_dominates_year_tally_witness :
  let movies := [movie 2000 ["Action"; "Comedy"]; movie 1995 ["Comedy"];
                 movie 1989 ["Drama"]; movie 1990 ["Comedy"]] in
  let d := {| genre := "Comedy"; count := 1 |} in
  d ∈ Scroll.aggregateYear movies 2000
  ∧ ∃ d', d' ∈ Scroll.aggregateYearRange movies 2000
          ∧ genre d' = genre d ∧ (count d ≤ count d')%nat.
Proof.
  assert (H : {| genre := "Comedy"; count := 1 |}
              ∈ Scroll.aggregateYear
                  [movie 2000 ["Action"; "Comedy"]; movie 1995 ["Comedy"];
                   movie 1989 ["Drama"]; movie 1990 ["Comedy"]] 2000).
  { vm_compute. right. left. }
  split; [exact H|].
  exact (window_tally_dominates_year_tally _ _ _ H).
Defined.

(** C5 (as amended). For every record set and every target year other than
    0, the single-year tally is the reference tally of that year: the records
    filtered to the year, their labels flattened, one entry per distinct
    label carrying its number of occurrences, the entries in non-increasing
    order of count; so its counts sum to the number of labels of the records
    of that year.  On the two-record example the tally for 2000 is
    [(Action, 2), (Comedy, 1)]. *)
Theorem aggregateYear_reference_tally :
  (∀ (movies : list TMovie) (y : Z),
     y ≠ 0 →
     is_tally_of (labels_of_year movies y) (Scroll.aggregateYear movies y)
     ∧ sum_list_with count (Scroll.aggregateYear movies y)
       = length (labels_of_year movies y))
  ∧ Scroll.aggregateYear
      [movie 2000 ["Action"; "Comedy"]; movie 2000 ["Action"]] 2000
    = [ {| genre := "Action"; count := 2 |};
        {| genre := "Comedy"; count := 1 |} ].
Proof.
  split; [|reflexivity].
  intros movies y Hy. rewrite aggregateYear_unfold by done.
  split; [apply sorted_genre_counts_is_tally|apply tally_counts_sum].
Qed.

Lemma aggregateYear_reference_tally_witness :
  let movies := [movie 1999 ["Drama"]; movie 2000 ["Action"; "Comedy"];
                 movie 2000 ["Action"]] in
  2000 ≠ 0
  ∧ is_tally_of (labels_of_year movies 2000)
      (Scroll.aggregateYear movies 2000)
  ∧ sum_list_with count (Scroll.aggregateYear movies 2000)
    = length (labels_of_year movies 2000).
Proof.
  assert (H : 2000 ≠ 0) by lia.
  split; [exact H|].
  exact (proj1 aggregateYear_reference_tally _ 2000 H).
Defined.

(** C5, as stated, fails at target year 0: a record of year 0 with one
    label has a one-entry reference tally, and the code returns nothing. *)
Lemma aggregateYear_year_zero_not_reference :
  let movies := [movie 0 ["Action"]] in
  labels_of_year movies 0 = ["Action"]
  ∧ Scroll.aggregateYear movies 0 = []
  ∧ ¬ is_tally_of (labels_of_year movies 0) (Scroll.aggregateYear movies 0)
  ∧ sum_list_with count (Scroll.aggregateYear movies 0)
    ≠ length (labels_of_year movies 0).
Proof.
  split_and!; [reflexivity..| |by vm_compute].
  intros (_ & Hdom & _). specialize (Hdom "Action").
  vm_compute in Hdom. destruct Hdom as [_ Hdom].
  pose proof (Hdom ltac:(left)) as Hin. by apply elem_of_nil in Hin.
Qed.


(** ** RankedLine.svelte: the cumulative trajectories *)

Lemma foldl_flat_map {A B C : Type} (f : C → B → C) (g : A → list B)
    (l : list A) (c : C) :
  foldl f c (flat_map g l) = foldl (λ c x, foldl f c (g x)) c l.
Proof.
  revert c. induction l as [|x l IH]; intros c; [done|].
  simpl. by rewrite foldl_app, IH.
Qed.

Lemma RankedLine_genres_set (movies : list TMovie) :
  RankedLine.genres movies = JS.set_of (flat_map genres movies).
Proof.
  unfold RankedLine.genres, allGenres, JS.set_of. by rewrite foldl_flat_map.
Qed.

Lemma top3_bonus_award (r : list Datum) (g : string) :
  match RankedLine.find_genre g
          (imap (λ i s, {| RankedLine.entry := s;
                           RankedLine.rank := Z.of_nat i + 1 |}) (take 3 r))
  with
  | Some e => 4 - RankedLine.rank e
  | None => 0
  end = award r g.
Proof.
  unfold award, RankedLine.find_genre.
  destruct r as [|a [|b [|c r]]]; simpl; [done|..];
    repeat (case_bool_decide; case_decide; try done; simpl).
  by destruct (list_find _ r) as [[i d]|].
Qed.

Lemma trajectory_step_bonus (g : string) (c : Z)
    (acc : list RankedLine.Point.t) (yd : RankedLine.YearData.t) :
  RankedLine.trajectory_step g (c, acc) yd
  = (c + bonus g yd,
     acc ++ [{| RankedLine.Point.year := RankedLine.YearData.year yd;
                RankedLine.Point.cumulative := c + bonus g yd |}]).
Proof.
  unfold RankedLine.trajectory_step, bonus. simpl.
  destruct (RankedLine.find_genre _ _); [done|]. by rewrite Z.add_0_r.
Qed.

Lemma trajectory_fold (g : string) (yds : list RankedLine.YearData.t)
    (c : Z) (acc : list RankedLine.Point.t) :
  (foldl (RankedLine.trajectory_step g) (c, acc) yds).2
  = acc ++ points_from g c yds.
Proof.
  revert c acc. induction yds as [|yd yds IH]; intros c acc; simpl.
  - by rewrite app_nil_r.
  - rewrite trajectory_step_bonus, IH, <- app_assoc. done.
Qed.

Lemma trajectory_points (g : string) (yds : list RankedLine.YearData.t) :
  RankedLine.trajectory yds g = points_from g 0 yds.
Proof. unfold RankedLine.trajectory. by rewrite trajectory_fold. Qed.

Lemma points_from_years (g : string) (yds : list RankedLine.YearData.t)
    (c : Z) :
  map RankedLine.Point.year (points_from g c yds)
  = map RankedLine.YearData.year yds.
Proof.
  revert c. induction yds as [|yd yds IH]; intros c; simpl; [done|].
  by rewrite IH.
Qed.

Lemma points_from_lookup (g : string) (yds : list RankedLine.YearData.t)
    (c : Z) (k : nat) (p : RankedLine.Point.t) :
  points_from g c yds !! k = Some p →
  RankedLine.Point.cumulative p
  = c + foldr (λ yd acc, bonus g yd + acc) 0 (take (S k) yds).
Proof.
  revert c k. induction yds as [|yd yds IH]; intros c k; [done|].
  destruct k as [|k]; simpl.
  - intros [= <-]. simpl. destruct yds; simpl; lia.
  - intros Hp. rewrite (IH _ _ Hp). simpl. lia.
Qed.

Lemma points_from_monotone (g : string) (yds : list RankedLine.YearData.t)
    (c : Z) (k : nat) (p q : RankedLine.Point.t) :
  (∀ yd, yd ∈ yds → 0 ≤ bonus g yd) →
  points_from g c yds !! k = Some p →
  points_from g c yds !! S k = Some q →
  RankedLine.Point.cumulative p ≤ RankedLine.Point.cumulative q.
Proof.
  revert c k. induction yds as [|yd yds IH]; intros c k Hpos; [done|].
  destruct k as [|k]; simpl.
  - intros [= <-]. destruct yds as [|yd' yds]; [done|]. simpl.
    intros [= <-]. simpl.
    assert (0 ≤ bonus g yd') by (apply Hpos; right; left). lia.
  - apply IH. intros yd' Hyd'. apply Hpos. by right.
Qed.


Lemma elem_of_yearData (movies : list TMovie) (yd : RankedLine.YearData.t) :
  yd ∈ RankedLine.yearData_of movies
  ↔ ∃ y, y ∈ map year movies
         ∧ yd = {| RankedLine.YearData.year := y;
                   RankedLine.YearData.top3 :=
                     RankedLine.top3_of (filter (λ m, year m = y) movies) |}.
Proof.
  unfold RankedLine.yearData_of.
  rewrite sort_Permutation, group_entries, map_map, list_elem_of_fmap.
  simpl. split.
  - intros (y & -> & Hy). rewrite elem_of_set_of in Hy. by exists y.
  - intros (y & Hy & ->). exists y. by rewrite elem_of_set_of.
Qed.

Lemma yearData_years_Permutation (movies : list TMovie) :
  map RankedLine.YearData.year (RankedLine.yearData_of movies)
  ≡ₚ JS.set_of (map year movies).
Proof.
  unfold RankedLine.yearData_of.
  rewrite sort_Permutation, group_entries, !map_map. simpl.
  by rewrite map_id.
Qed.

Lemma Sorted_le_NoDup_lt (l : list Z) :
  Sorted Z.le l → NoDup l → StronglySorted Z.lt l.
Proof.
  intros Hs%Sorted_StronglySorted; [|apply _].
  induction Hs as [|x l Hs IH Hx]; intros Hnd; constructor.
  - apply IH. by apply NoDup_cons in Hnd as [_ ?].
  - apply NoDup_cons in Hnd as [Hx' _].
    rewrite Forall_forall in Hx |- *. intros y Hy.
    assert (x ≠ y) by (intros ->; by apply Hx', list_elem_of_In).
    specialize (Hx y Hy). lia.
Qed.


Lemma bonus_yearData (movies : list TMovie) (g : string)
    (yd : RankedLine.YearData.t) :
  yd ∈ RankedLine.yearData_of movies →
  bonus g yd = award (year_ranking movies (RankedLine.YearData.year yd)) g.
Proof.
  intros (y & _ & ->)%elem_of_yearData. unfold bonus. simpl.
  unfold RankedLine.top3_of. by rewrite top3_bonus_award.
Qed.

Lemma award_nonneg (r : list Datum) (g : string) : 0 ≤ award r g.
Proof.
  unfold award. destruct (fst <$> list_find _ r) as [[|[|[|n]]]|]; lia.
Qed.

Lemma score_bonus (movies : list TMovie) (g : string)
    (yds : list RankedLine.YearData.t) :
  (∀ yd, yd ∈ yds → yd ∈ RankedLine.yearData_of movies) →
  foldr (λ yd acc, bonus g yd + acc) 0 yds
  = score movies g (map RankedLine.YearData.year yds).
Proof.
  induction yds as [|yd yds IH]; intros Hin; [done|]. simpl.
  rewrite IH by (intros yd' ?; apply Hin; by right).
  rewrite (bonus_yearData movies) by (apply Hin; left). done.
Qed.

Lemma processedData_nonempty (m : TMovie) (movies : list TMovie) :
  RankedLine.processedData (m :: movies)
  = let yearData := RankedLine.yearData_of (m :: movies) in
    {| RankedLine.yearData := yearData;
       RankedLine.genreTrajectories :=
         map (RankedLine.trajectory yearData)
             (RankedLine.genres (m :: movies));
       RankedLine.years := map RankedLine.YearData.year yearData |}.
Proof. reflexivity. Qed.

Lemma elem_of_flat_map_genres (movies : list TMovie) (g : string) :
  g ∈ flat_map genres movies ↔ ∃ m, m ∈ movies ∧ g ∈ genres m.
Proof.
  rewrite list_elem_of_In, in_flat_map.
  by setoid_rewrite list_elem_of_In.
Qed.


(** C9. For every record set and every genre, the cumulative score of the
    genre's trajectory never decreases from one year to the next of the
    chronologically ordered years. *)
Theorem ranked_line_monotone (movies : list TMovie)
    (traj : list RankedLine.Point.t) (k : nat) (p q : RankedLine.Point.t) :
  traj ∈ RankedLine.genreTrajectories (RankedLine.processedData movies) →
  traj !! k = Some p →
  traj !! S k = Some q →
  RankedLine.Point.cumulative p ≤ RankedLine.Point.cumulative q.
Proof.
  destruct movies as [|m ms]; [by intros ?%elem_of_nil|].
  rewrite processedData_nonempty. simpl.
  intros (g & -> & _)%list_elem_of_fmap. rewrite trajectory_points.
  apply points_from_monotone. intros yd Hyd.
  rewrite (bonus_yearData _ _ _ Hyd). apply award_nonneg.
Qed.

Lemma ranked_line_monotone_witness :
  let movies := [movie 2001 ["A"; "B"]; movie 2000 ["A"; "B"; "C"; "D"];
                 movie 2000 ["C"; "A"]; movie 2002 ["E"]] in
  let p := {| RankedLine.Point.year := 2000;
              RankedLine.Point.cumulative := 1 |} in
  let q := {| RankedLine.Point.year := 2001;
              RankedLine.Point.cumulative := 3 |} in
  let r := {| RankedLine.Point.year := 2002;
              RankedLine.Point.cumulative := 3 |} in
  [p; q; r] ∈ RankedLine.genreTrajectories (RankedLine.processedData movies)
  ∧ [p; q; r] !! 0%nat = Some p
  ∧ [p; q; r] !! 1%nat = Some q
  ∧ RankedLine.Point.cumulative p ≤ RankedLine.Point.cumulative q.
Proof.
  intros movies p q r.
  assert (Hin : [p; q; r]
                ∈ RankedLine.genreTrajectories
                    (RankedLine.processedData movies)).
  { vm_compute. right. left. }
  split_and!; [exact Hin|reflexivity..|].
  exact (ranked_line_monotone movies [p; q; r] 0 p q Hin eq_refl eq_refl).
Defined.

(** ** GenreHeatmap.svelte: the co-occurrence matrix *)

































(** ** Scroll.svelte: the scroll tracker *)

Lemma closer_fold (innerHeight : Q) (l : list Scroll.Step) :
  match foldl (Scroll.closer innerHeight) (None, None) l with
  | (None, None) => l = []
  | (Some step, Some d) =>
      d = Scroll.distance innerHeight step
      ∧ ∃ i, nearest_first innerHeight l i step
  | _ => False
  end.
Proof.
  induction l as [|x l IH] using rev_ind; [done|].
  rewrite foldl_app. simpl.
  destruct (foldl (Scroll.closer innerHeight) (None, None) l)
    as [[step|] [d|]]; try done.
  - destruct IH as (-> & i & Hi & Hle & Hlt).
    unfold Scroll.closer. simpl.
    destruct (Qlt_le_dec _ _) as [Hx|Hx].
    + split; [done|]. exists (length l). split_and!.
      * by rewrite lookup_app_r, Nat.sub_diag.
      * intros j s [Hs|[_ Hs]]%lookup_app_Some.
        -- apply Qlt_le_weak. eapply Qlt_le_trans; [exact Hx|]. eauto.
        -- apply list_lookup_singleton_Some in Hs as [_ <-]. apply Qle_refl.
      * intros j s Hj Hs. rewrite lookup_app_l in Hs by done.
        eapply Qlt_le_trans; [exact Hx|]. eauto.
    + split; [done|]. exists i. split_and!.
      * rewrite lookup_app_l; [done|]. by eapply lookup_lt_Some.
      * intros j s [Hs|[_ Hs]]%lookup_app_Some; [eauto|].
        by apply list_lookup_singleton_Some in Hs as [_ <-].
      * intros j s Hj Hs. apply (Hlt j s Hj).
        rewrite lookup_app_l in Hs; [done|].
        apply lookup_lt_Some in Hi. lia.
  - subst l. unfold Scroll.closer. simpl. split; [done|].
    exists 0%nat. split_and!; [done| |intros; lia].
    intros [|j] s Hs; [|done]. injection Hs as <-. apply Qle_refl.
Qed.

Lemma closestStep_nearest (innerHeight : Q) (steps : list Scroll.Step) :
  steps ≠ [] →
  ∃ i step, Scroll.closestStep innerHeight steps = Some step
            ∧ nearest_first innerHeight steps i step.
Proof.
  intros Hne. pose proof (closer_fold innerHeight steps) as H.
  unfold Scroll.closestStep.
  destruct (foldl _ _ steps) as [[step|] [d|]]; try done.
  destruct H as (_ & i & Hi). by exists i, step.
Qed.

(** C7. For every non-empty collection of steps, the tracker selects the
    step whose midpoint is nearest to the middle of the viewport, the first
    in document order among equally near ones (every earlier step is
    strictly farther), and the current year becomes the year of that step.
    (The year of a step is the number its header parses as; a selected step
    whose header is missing or not a number leaves the current year as it
    was.) *)
Theorem findVisibleYear_nearest_step (innerHeight : Q)
    (steps : list Scroll.Step) (currentYear : Z) :
  steps ≠ [] →
  ∃ i step,
    Scroll.closestStep innerHeight steps = Some step
    ∧ nearest_first innerHeight steps i step
    ∧ (∀ y, Scroll.step_year step = Some y →
            Scroll.findVisibleYear innerHeight steps currentYear = y)
    ∧ (Scroll.step_year step = None →
       Scroll.findVisibleYear innerHeight steps currentYear = currentYear).
Proof.
  intros Hne. destruct (closestStep_nearest innerHeight steps Hne)
    as (i & step & Hc & Hn).
  exists i, step. split_and!; [done..| |];
    unfold Scroll.findVisibleYear, Scroll.step_year; rewrite Hc;
    (destruct steps as [|s0 steps]; [done|]); simpl;
    (destruct (Scroll.yearHeader step) as [text|]; [|done]); simpl;
    (destruct (JS.parseInt _) as [newYear|]; [|done]).
  - intros y [= <-]. case_decide as Hy; [done|]. by symmetry.
  - done.
Qed.

(** The scenario of C7: steps of the years 1990, 2000 and 2010, each 200
    high, the second one around the middle of a viewport 800 high. *)
Lemma findVisibleYear_nearest_step_witness :
  let step_at top year :=
    {| Scroll.rect := {| Scroll.DOMRect.top := top;
                         Scroll.DOMRect.height := 200 |};
       Scroll.yearHeader := Some year |} in
  let steps := [step_at 50%Q "1990"%string; step_at 290%Q "2000"%string;
                step_at 530%Q "2010"%string] in
  steps ≠ []
  ∧ (∃ i step,
       Scroll.closestStep 800 steps = Some step
       ∧ nearest_first 800 steps i step
       ∧ (∀ y, Scroll.step_year step = Some y →
               Scroll.findVisibleYear 800 steps 1990 = y)
       ∧ (Scroll.step_year step = None →
          Scroll.findVisibleYear 800 steps 1990 = 1990))
  ∧ Scroll.findVisibleYear 800 steps 1990 = 2000.
Proof.
  intros step_at steps.
  assert (Hne : steps ≠ []) by done.
  split; [exact Hne|]. split; [|reflexivity].
  exact (findVisibleYear_nearest_step 800 steps 1990 Hne).
Defined.

(** ** The 3D bar scene: the scroll offset stays within the content *)

Lemma step_scroll_invariant (movieData : gmap string Z)
    (s : BarScene.State) (e : BarScene.Event) :
  (8 ≤ size movieData)%nat →
  scroll_invariant movieData s →
  scroll_invariant movieData (BarScene.step movieData s e).
Proof.
  unfold scroll_invariant. intros Hsize [Hs Hmax].
  destruct e as [x|x| | |k|]; simpl; try done.
  - unfold BarScene.mousemove. destruct (BarScene.isDragging s); simpl; lia.
  - unfold BarScene.keydown. repeat case_decide; simpl; lia.
  - lia.
Qed.

Lemma run_scroll_invariant (movieData : gmap string Z)
    (events : list BarScene.Event) :
  (8 ≤ size movieData)%nat →
  scroll_invariant movieData (BarScene.run movieData events).
Proof.
  intros Hsize. unfold BarScene.run.
  induction events as [|e events IH] using rev_ind.
  - unfold scroll_invariant. simpl. lia.
  - rewrite foldl_app. simpl. by apply step_scroll_invariant.
Qed.

Lemma run_maxScroll_created (movieData : gmap string Z)
    (events : list BarScene.Event) :
  BarScene.FontLoaded ∈ events →
  BarScene.maxScroll (BarScene.run movieData events)
  = Z.of_nat (size movieData) * 150 - 1200.
Proof.
  unfold BarScene.run.
  induction events as [|e events IH] using rev_ind;
    [by intros ?%elem_of_nil|].
  rewrite foldl_app. simpl.
  intros [Hin| <-%list_elem_of_singleton]%elem_of_app; [|done].
  specialize (IH Hin). destruct e as [x|x| | |k|]; simpl; try done.
  - unfold BarScene.mousemove. by destruct (BarScene.isDragging _).
  - unfold BarScene.keydown. by repeat case_decide.
Qed.

(** C8 (as amended). In the 3D bar scene, for every category-to-count
    mapping with at least 8 categories (so that the bars are at least as
    wide as the viewport) and every sequence of pointer, key and load
    events from the initial state, the scroll offset stays between 0 and
    [maxScroll]; once the bars are created, [maxScroll] is the total width
    of the bars (150 per category) minus the viewport width (1200). *)
Theorem scroll_offset_within_content (movieData : gmap string Z)
    (events : list BarScene.Event) :
  (8 ≤ size movieData)%nat →
  0 ≤ BarScene.scrollOffset (BarScene.run movieData events)
    ≤ BarScene.maxScroll (BarScene.run movieData events)
  ∧ (BarScene.FontLoaded ∈ events →
     BarScene.maxScroll (BarScene.run movieData events)
     = Z.of_nat (size movieData) * 150 - 1200).
Proof.
  intros Hsize. split.
  - by apply run_scroll_invariant.
  - apply run_maxScroll_created.
Qed.

Lemma scroll_offset_within_content_witness :
  let movieData : gmap string Z :=
    list_to_map
      [("Action"%string, 25); ("Comedy"%string, 18); ("Drama"%string, 15);
       ("Horror"%string, 12); ("Sci-Fi"%string, 20);
       ("Animation"%string, 10); ("Romance"%string, 9);
       ("Family"%string, 7); ("Music"%string, 3)] in
  let events :=
    [BarScene.KeyDown "ArrowRight"; BarScene.FontLoaded;
     BarScene.MouseDown 400; BarScene.MouseMove 100;
     BarScene.KeyDown "ArrowRight"; BarScene.MouseUp;
     BarScene.KeyDown "ArrowLeft"] in
  (8 ≤ size movieData)%nat
  ∧ 0 ≤ BarScene.scrollOffset (BarScene.run movieData events)
      ≤ BarScene.maxScroll (BarScene.run movieData events)
  ∧ BarScene.scrollOffset (BarScene.run movieData events) = 0
  ∧ BarScene.maxScroll (BarScene.run movieData events) = 150.
Proof.
  intros movieData events.
  assert (Hsize : (8 ≤ size movieData)%nat) by (vm_compute; lia).
  split; [exact Hsize|].
  split; [exact (proj1 (scroll_offset_within_content movieData events Hsize))|].
  by vm_compute.
Defined.

(** C8, as stated, fails for the six categories of the fallback mapping:
    the bars are narrower than the viewport, [maxScroll] is negative, and
    ArrowRight moves the offset below 0. *)
Lemma scroll_offset_leaves_content :
  let s := BarScene.run BarScene.fallback
             [BarScene.FontLoaded; BarScene.KeyDown "ArrowRight"] in
  BarScene.maxScroll s = -300
  ∧ BarScene.scrollOffset s = -300
  ∧ ¬ (0 ≤ BarScene.scrollOffset s ≤ BarScene.maxScroll s).
Proof. vm_compute. split_and!; [done..|]. intros [H _]. by apply H. Qed.

(** ** RankBar.svelte: entering and updating bars *)

Lemma first_bar_None (k : string) (group : list RankBar.Bar) :
  RankBar.first_bar k group = None ↔ k ∉ bar_keys group.
Proof.
  unfold RankBar.first_bar, bar_keys.
  rewrite list_find_None, Forall_forall, list_elem_of_fmap. split.
  - intros H (b & -> & Hb). by apply (H b).
  - intros H b Hb Hk. apply H. by exists b.
Qed.

Lemma first_bar_Some (k : string) (group : list RankBar.Bar) (p : nat)
    (b : RankBar.Bar) :
  RankBar.first_bar k group = Some (p, b) →
  group !! p = Some b ∧ RankBar.key (RankBar.datum b) = k.
Proof.
  unfold RankBar.first_bar. intros (? & ? & _)%list_find_Some. done.
Qed.

Lemma first_bar_is_Some (k : string) (group : list RankBar.Bar) :
  k ∈ bar_keys group → is_Some (RankBar.first_bar k group).
Proof.
  intros Hk. destruct (RankBar.first_bar k group) eqn:Hf; [done|].
  by apply first_bar_None in Hf.
Qed.

Lemma join_data (group : list RankBar.Bar) (data : list Datum) :
  ∀ taken, map fst (RankBar.join group taken data) = data.
Proof.
  induction data as [|d data IH]; intros taken; simpl; [done|].
  by rewrite IH.
Qed.

(** A datum only joins a bar of its own key. *)
Lemma join_Some (group : list RankBar.Bar) (data : list Datum) :
  ∀ taken d p,
    (d, Some p) ∈ RankBar.join group taken data →
    ∃ b, RankBar.first_bar (RankBar.key d) group = Some (p, b).
Proof.
  induction data as [|d0 data IH]; intros taken d p; simpl.
  - by intros ?%elem_of_nil.
  - intros [Heq|Hin]%elem_of_cons; [|by eapply IH].
    injection Heq as -> Hm. case_decide; [done|].
    destruct (RankBar.first_bar _ _) as [[p' b]|]; [|done].
    injection Hm as ->. by exists b.
Qed.

(** The key of a bar is joined by some datum as soon as a datum has it. *)
Lemma join_covers (group : list RankBar.Bar) (data : list Datum) :
  ∀ taken d,
    d ∈ data → RankBar.key d ∉ taken →
    RankBar.key d ∈ bar_keys group →
    ∃ d' p, (d', Some p) ∈ RankBar.join group taken data
            ∧ RankBar.key d' = RankBar.key d.
Proof.
  induction data as [|d0 data IH]; intros taken d; simpl.
  - by intros ?%elem_of_nil.
  - intros Hd Htaken Hk.
    destruct (decide (RankBar.key d0 = RankBar.key d)) as [Heq|Hne].
    + destruct (first_bar_is_Some _ _ Hk) as [[p b] Hf].
      exists d0, p. split; [|done].
      rewrite decide_False by (by rewrite Heq). rewrite Heq, Hf. left.
    + apply elem_of_cons in Hd as [->|Hd]; [done|].
      destruct (IH (RankBar.key d0 :: taken) d Hd) as (d' & p & Hin & Hk');
        [by intros [?|?]%elem_of_cons|done|].
      exists d', p. split; [by right|done].
Qed.

(** A datum whose key no bar has enters. *)
Lemma join_None (group : list RankBar.Bar) (data : list Datum) :
  ∀ taken d,
    d ∈ data → RankBar.key d ∉ bar_keys group →
    (d, None) ∈ RankBar.join group taken data.
Proof.
  induction data as [|d0 data IH]; intros taken d; simpl.
  - by intros ?%elem_of_nil.
  - intros [->|Hd]%elem_of_cons Hk.
    + apply first_bar_None in Hk. rewrite Hk.
      case_decide; left.
    + right. by apply IH.
Qed.

(** With pairwise distinct keys no datum finds its key taken. *)
Lemma join_NoDup (group : list RankBar.Bar) (data : list Datum) :
  ∀ taken,
    NoDup (map RankBar.key data) →
    (∀ d, d ∈ data → RankBar.key d ∉ taken) →
    RankBar.join group taken data
    = map (λ d, (d, fst <$> RankBar.first_bar (RankBar.key d) group)) data.
Proof.
  induction data as [|d0 data IH]; intros taken Hnd Htaken; simpl; [done|].
  apply NoDup_cons in Hnd as [Hd0 Hnd].
  rewrite decide_False by (apply Htaken; left). f_equal.
  apply IH; [done|]. intros d Hd [Heq|?]%elem_of_cons.
  - apply Hd0. rewrite <- Heq. apply list_elem_of_fmap. by exists d.
  - by apply (Htaken d); [right|].
Qed.

Lemma entering_cons (dm : Datum * option nat)
    (joined : list (Datum * option nat)) :
  map fst (RankBar.entering (dm :: joined))
  = match dm.2 with
    | Some _ => map fst (RankBar.entering joined)
    | None => dm.1 :: map fst (RankBar.entering joined)
    end.
Proof. unfold RankBar.entering. simpl. by destruct (dm.2). Qed.

Lemma elem_of_entering (joined : list (Datum * option nat)) (d : Datum) :
  d ∈ map fst (RankBar.entering joined) ↔ (d, None) ∈ joined.
Proof.
  induction joined as [|[d0 m] joined IH].
  - split; by intros ?%elem_of_nil.
  - rewrite entering_cons, elem_of_cons. simpl. destruct m as [p|].
    + rewrite IH. split; [by right|]. by intros [?|?].
    + rewrite elem_of_cons, IH. split; intros [H|H]; auto.
      * left. by rewrite H.
      * left. by injection H.
Qed.

Lemma bound_Some (joined : list (Datum * option nat)) (p : nat) (d : Datum) :
  RankBar.bound joined p = Some d → (d, Some p) ∈ joined.
Proof.
  unfold RankBar.bound.
  destruct (List.find _ joined) as [[d' m]|] eqn:Hf; [|done].
  intros [= <-]. apply find_some in Hf as [Hin Hm].
  apply bool_decide_eq_true in Hm. simpl in Hm. subst m.
  by apply list_elem_of_In.
Qed.

Lemma bound_is_Some (joined : list (Datum * option nat)) (p : nat)
    (d : Datum) :
  (d, Some p) ∈ joined → is_Some (RankBar.bound joined p).
Proof.
  unfold RankBar.bound. intros Hin%list_elem_of_In.
  destruct (List.find _ joined) as [dm|] eqn:Hf; [done|].
  apply (find_none _ _ Hf) in Hin. by apply bool_decide_eq_false in Hin.
Qed.

Lemma insert_before_Permutation (next : option nat)
    (x : option nat * RankBar.Bar) (dom : list (option nat * RankBar.Bar)) :
  RankBar.insert_before next x dom ≡ₚ x :: dom.
Proof.
  induction dom as [|y dom IH]; simpl; [done|].
  case_decide; [done|]. rewrite IH. apply Permutation_swap.
Qed.

Lemma foldl_insert_before_Permutation {E : Type} (next : E → option nat)
    (new : E → option nat * RankBar.Bar) (es : list E) :
  ∀ dom0,
    foldl (λ dom e, RankBar.insert_before (next e) (new e) dom) dom0 es
    ≡ₚ dom0 ++ map new es.
Proof.
  induction es as [|e es IH]; intros dom0; simpl.
  - by rewrite app_nil_r.
  - rewrite IH, insert_before_Permutation.
    by rewrite <- Permutation_middle.
Qed.

Lemma map_snd_imap {A B C : Type} (t : nat → B) (h : nat → A → C)
    (l : list A) :
  map snd (imap (λ p b, (t p, h p b)) l) = imap h l.
Proof.
  revert t h. induction l as [|x l IH]; intros t h; [done|].
  simpl. f_equal. apply (IH (t ∘ S) (h ∘ S)).
Qed.

(** The chart after a draw: the bars that were selected, rebound or
    exiting, and one new bar for every entering datum. *)
Lemma draw_dom_Permutation (now : Z) (bars : list RankBar.Bar)
    (data : list Datum) :
  RankBar.dom (RankBar.draw now bars data)
  ≡ₚ imap (RankBar.rebind now
             (RankBar.join (RankBar.selectAll now bars) [] data))
       (RankBar.selectAll now bars)
     ++ map (λ d, {| RankBar.datum := d; RankBar.removal := None |})
          (RankBar.enter (RankBar.draw now bars data)).
Proof.
  unfold RankBar.draw. simpl.
  rewrite (foldl_insert_before_Permutation snd
             (λ e, (None, {| RankBar.datum := e.1;
                             RankBar.removal := None |}))).
  rewrite map_app, !map_map. simpl.
  by rewrite map_snd_imap.
Qed.

Lemma elem_of_draw_enter (now : Z) (bars : list RankBar.Bar)
    (data : list Datum) (d : Datum) :
  d ∈ RankBar.enter (RankBar.draw now bars data)
  ↔ (d, None) ∈ RankBar.join (RankBar.selectAll now bars) [] data.
Proof. unfold RankBar.draw. simpl. apply elem_of_entering. Qed.

Lemma elem_of_join_data (group : list RankBar.Bar) (taken : list string)
    (data : list Datum) (d : Datum) (m : option nat) :
  (d, m) ∈ RankBar.join group taken data → d ∈ data.
Proof.
  intros Hin. rewrite <- (join_data group data taken).
  apply list_elem_of_fmap. by exists (d, m).
Qed.

(** Every datum drawn has a bar of its key that stays in the chart. *)
Lemma draw_keeps_data_keys (now : Z) (bars : list RankBar.Bar)
    (data : list Datum) (d : Datum) :
  d ∈ data →
  ∃ b, b ∈ RankBar.dom (RankBar.draw now bars data)
       ∧ RankBar.key (RankBar.datum b) = RankBar.key d
       ∧ RankBar.removal b = None.
Proof.
  intros Hd. set (group := RankBar.selectAll now bars).
  destruct (decide (RankBar.key d ∈ bar_keys group)) as [Hk|Hk].
  - destruct (join_covers group data [] d Hd) as (d' & p & Hin & Hk');
      [by intros ?%elem_of_nil|done|].
    destruct (join_Some _ _ _ _ _ Hin) as (b0 & Hf).
    apply first_bar_Some in Hf as [Hp Hb0].
    destruct (bound_is_Some _ _ _ Hin) as [d'' Hb].
    exists {| RankBar.datum := d''; RankBar.removal := None |}.
    split_and!; [|simpl|done].
    + rewrite draw_dom_Permutation. apply elem_of_app. left.
      apply elem_of_lookup_imap. exists p, b0. split; [|done].
      unfold RankBar.rebind. fold group. by rewrite Hb.
    + apply bound_Some, join_Some in Hb as (b1 & Hf').
      apply first_bar_Some in Hf' as [Hp' Hb1].
      rewrite Hp in Hp'. injection Hp' as <-. congruence.
  - exists {| RankBar.datum := d; RankBar.removal := None |}.
    split_and!; [|done..].
    rewrite draw_dom_Permutation. apply elem_of_app. right.
    apply list_elem_of_fmap. exists d. split; [done|].
    apply elem_of_draw_enter. by apply join_None.
Qed.

(** Once the exit transitions have ended, every bar left in the chart
    carries a key of the data drawn. *)
Lemma draw_document_keys (now : Z) (bars : list RankBar.Bar)
    (data : list Datum) (t : Z) (b : RankBar.Bar) :
  b ∈ RankBar.dom (RankBar.draw now bars data) →
  now + 300 ≤ t →
  RankBar.in_document t b = true →
  RankBar.key (RankBar.datum b) ∈ map RankBar.key data.
Proof.
  rewrite draw_dom_Permutation, elem_of_app. intros [Hb|Hb] Ht Hdoc.
  - apply elem_of_lookup_imap in Hb as (p & b0 & -> & Hp).
    unfold RankBar.rebind in *.
    destruct (RankBar.bound _ p) as [d|] eqn:Hbound; simpl in *.
    + apply bound_Some, elem_of_join_data in Hbound.
      apply list_elem_of_fmap. by exists d.
    + unfold RankBar.in_document in Hdoc. simpl in Hdoc.
      apply Z.ltb_lt in Hdoc. lia.
  - apply list_elem_of_fmap in Hb as (d & -> & Hd). simpl.
    apply elem_of_draw_enter, elem_of_join_data in Hd.
    apply list_elem_of_fmap. by exists d.
Qed.

Lemma entering_distinct (group : list RankBar.Bar) (data : list Datum) :
  map fst
    (RankBar.entering
       (map (λ d, (d, fst <$> RankBar.first_bar (RankBar.key d) group)) data))
  = filter (λ d, RankBar.key d ∉ bar_keys group) data.
Proof.
  induction data as [|d data IH]; [done|].
  cbn [map]. rewrite entering_cons, IH. simpl.
  destruct (RankBar.first_bar _ group) as [[p b]|] eqn:Hf; simpl.
  - rewrite filter_cons_False; [done|]. intros Hk.
    apply first_bar_None in Hk. congruence.
  - rewrite filter_cons_True; [done|]. by apply first_bar_None.
Qed.

(** With pairwise distinct keys, the entering data are those whose key no
    bar of the chart has. *)
Lemma draw_enter_distinct (now : Z) (bars : list RankBar.Bar)
    (data : list Datum) :
  NoDup (map RankBar.key data) →
  RankBar.enter (RankBar.draw now bars data)
  = filter (λ d, RankBar.key d ∉ bar_keys (RankBar.selectAll now bars)) data.
Proof.
  intros Hnd. unfold RankBar.draw. simpl.
  rewrite join_NoDup; [apply entering_distinct|done|].
  by intros d _ ?%elem_of_nil.
Qed.

Lemma draw_update_distinct (now : Z) (bars : list RankBar.Bar)
    (data : list Datum) (d : Datum) :
  NoDup (map RankBar.key data) →
  d ∈ data →
  RankBar.key d ∈ bar_keys (RankBar.selectAll now bars) →
  d ∈ RankBar.update (RankBar.draw now bars data).
Proof.
  intros Hnd Hd Hk. unfold RankBar.draw. simpl.
  rewrite join_NoDup; [|done|by intros ? _ ?%elem_of_nil].
  apply list_elem_of_omap. exists (d, fst <$> RankBar.first_bar (RankBar.key d)
                                      (RankBar.selectAll now bars)).
  split.
  - apply list_elem_of_fmap. by exists d.
  - simpl. by destruct (first_bar_is_Some _ _ Hk) as [[p b] ->].
Qed.

Lemma elem_of_bar_transitions (sel : RankBar.Selection) (dl du : Z)
    (d : Datum) (tr : RankBar.Transition) :
  tr ∈ RankBar.bar_transitions sel dl du d →
  RankBar.bar tr = RankBar.key d ∧ RankBar.selection tr = sel
  ∧ RankBar.delay tr = dl ∧ RankBar.duration tr = du.
Proof.
  unfold RankBar.bar_transitions.
  intros (el & -> & _)%list_elem_of_fmap. done.
Qed.

(** Every transition of a draw is one of an updating bar (at once, 600 ms),
    of an entering bar (after 600 ms, 400 ms) or of an exiting bar (at
    once, 300 ms). *)
Lemma elem_of_transitions (now : Z) (bars : list RankBar.Bar)
    (data : list Datum) (tr : RankBar.Transition) :
  tr ∈ RankBar.transitions (RankBar.draw now bars data) →
  (∃ d, d ∈ RankBar.update (RankBar.draw now bars data)
        ∧ RankBar.bar tr = RankBar.key d
        ∧ RankBar.selection tr = RankBar.Update
        ∧ RankBar.delay tr = 0 ∧ RankBar.duration tr = 600)
  ∨ (∃ d, d ∈ RankBar.enter (RankBar.draw now bars data)
          ∧ RankBar.bar tr = RankBar.key d
          ∧ RankBar.selection tr = RankBar.Enter
          ∧ RankBar.delay tr = 600 ∧ RankBar.duration tr = 400)
  ∨ (∃ b, b ∈ RankBar.exit (RankBar.draw now bars data)
          ∧ RankBar.bar tr = RankBar.key (RankBar.datum b)
          ∧ RankBar.selection tr = RankBar.Exit
          ∧ RankBar.delay tr = 0 ∧ RankBar.duration tr = 300).
Proof.
  unfold RankBar.draw. simpl. rewrite !elem_of_app.
  intros [Hu|[He|Hx]].
  - left. apply list_elem_of_In, in_flat_map in Hu as (d & Hd & Htr).
    exists d. split; [by apply list_elem_of_In|].
    by apply elem_of_bar_transitions, list_elem_of_In.
  - right; left. apply list_elem_of_In, in_flat_map in He as (d & Hd & Htr).
    exists d. split; [by apply list_elem_of_In|].
    by apply elem_of_bar_transitions, list_elem_of_In.
  - right; right. apply list_elem_of_fmap in Hx as (b & -> & Hb).
    by exists b.
Qed.

Lemma draw_update_keys (now : Z) (bars : list RankBar.Bar)
    (data : list Datum) (d : Datum) :
  d ∈ RankBar.update (RankBar.draw now bars data) →
  RankBar.key d ∈ bar_keys (RankBar.selectAll now bars).
Proof.
  unfold RankBar.draw. simpl.
  intros ([d' m] & Hin & Hm)%list_elem_of_omap. simpl in Hm.
  destruct m as [p|]; [|done]. injection Hm as ->.
  apply join_Some in Hin as (b & Hf).
  apply first_bar_Some in Hf as [Hp Hk].
  apply list_elem_of_fmap. exists b. split; [done|].
  by eapply list_elem_of_lookup_2.
Qed.

Lemma draw_exit_keys (now : Z) (bars : list RankBar.Bar)
    (data : list Datum) (b : RankBar.Bar) :
  b ∈ RankBar.exit (RankBar.draw now bars data) →
  RankBar.key (RankBar.datum b) ∈ bar_keys (RankBar.selectAll now bars).
Proof.
  unfold RankBar.draw. simpl.
  intros ([p b'] & Hin & Hm)%list_elem_of_omap. simpl in Hm.
  destruct (RankBar.bound _ p); [done|]. injection Hm as Hb.
  apply elem_of_lookup_imap in Hin as (i & y & Heq & Hl).
  injection Heq as -> ->. subst y.
  apply list_elem_of_fmap. exists b. split; [done|].
  by eapply list_elem_of_lookup_2.
Qed.

Lemma draw_enter_keys (now : Z) (bars : list RankBar.Bar)
    (data : list Datum) (d : Datum) :
  NoDup (map RankBar.key data) →
  d ∈ RankBar.enter (RankBar.draw now bars data) →
  d ∈ data ∧ RankBar.key d ∉ bar_keys (RankBar.selectAll now bars).
Proof.
  intros Hnd. rewrite draw_enter_distinct by done.
  by intros [? ?]%list_elem_of_filter.
Qed.

Lemma ranked_Permutation (data : list Datum) : RankBar.ranked data ≡ₚ data.
Proof. apply sort_Permutation. Qed.

Lemma ranked_keys (data : list Datum) (k : string) :
  k ∈ map RankBar.key (RankBar.ranked data) ↔ k ∈ map genre data.
Proof. by rewrite ranked_Permutation. Qed.

Lemma ranked_NoDup (data : list Datum) :
  NoDup (map genre data) → NoDup (map RankBar.key (RankBar.ranked data)).
Proof. by rewrite ranked_Permutation. Qed.

(** The bars of the chart after a render carry the keys of its data, and
    exactly those once its exit transitions have ended. *)
Lemma rendered_keys (t0 t1 : Z) (bars0 : list RankBar.Bar)
    (old : list Datum) (k : string) :
  (k ∈ map genre old →
   k ∈ bar_keys (RankBar.selectAll t1
                   (RankBar.dom (RankBar.render t0 bars0 old))))
  ∧ (t0 + 300 ≤ t1 →
     k ∈ bar_keys (RankBar.selectAll t1
                     (RankBar.dom (RankBar.render t0 bars0 old))) →
     k ∈ map genre old).
Proof.
  unfold RankBar.render. split.
  - intros (d & -> & Hd)%ranked_keys%list_elem_of_fmap.
    destruct (draw_keeps_data_keys t0 bars0 _ d Hd) as (b & Hb & Hk & Hr).
    apply list_elem_of_fmap. exists b. split; [done|].
    apply list_elem_of_filter. split; [|done].
    unfold RankBar.in_document. by rewrite Hr.
  - intros Ht (b & -> & [Hdoc Hb]%list_elem_of_filter)%list_elem_of_fmap.
    apply ranked_keys. by eapply draw_document_keys.
Qed.

(** C6 (as amended). On every re-render of the ranked bar chart with new
    data of pairwise distinct categories: once the exit transitions of the
    previous render (300 ms) have ended, the entering categories are exactly
    those keyed in the new data and not in the previously rendered data;
    every category of both the old and the new data is updated, and all
    its transitions begin at once; every transition of an entering category
    begins after 600 ms, when the update transitions (600 ms from the
    render) have ended.  Going from [(A,5),(B,10)] to
    [(A,5),(B,10),(C,1)], C is the only entering bar; the transitions of A
    and B run from 0 to 600 ms and those of C start at 600 ms. *)
Theorem rerender_enter_after_update :
  (∀ (t0 t1 : Z) (bars0 : list RankBar.Bar) (old new : list Datum),
     let r1 :=
       RankBar.render t1 (RankBar.dom (RankBar.render t0 bars0 old)) new in
     NoDup (map genre new) →
     (t0 + 300 ≤ t1 →
      ∀ k, k ∈ map genre (RankBar.enter r1)
           ↔ k ∈ map genre new ∧ k ∉ map genre old)
     ∧ (∀ k, k ∈ map genre old → k ∈ map genre new →
          k ∈ map genre (RankBar.update r1)
          ∧ ∀ tr, tr ∈ RankBar.transitions r1 → RankBar.bar tr = k →
                  RankBar.delay tr = 0)
     ∧ (∀ k, k ∈ map genre (RankBar.enter r1) →
          ∀ tr, tr ∈ RankBar.transitions r1 → RankBar.bar tr = k →
                RankBar.delay tr = 600
                ∧ ∀ tr', tr' ∈ RankBar.transitions r1 →
                         RankBar.selection tr' = RankBar.Update →
                         RankBar.delay tr' + RankBar.duration tr'
                         ≤ RankBar.delay tr))
  ∧ (∀ t0 t1 : Z,
       let A := {| genre := "A"; count := 5 |} in
       let B := {| genre := "B"; count := 10 |} in
       let C := {| genre := "C"; count := 1 |} in
       let r1 :=
         RankBar.render t1 (RankBar.dom (RankBar.render t0 [] [A; B]))
           [A; B; C] in
       RankBar.enter r1 = [C]
       ∧ RankBar.update r1 = [B; A]
       ∧ map (λ tr, (RankBar.bar tr, RankBar.selection tr,
                     RankBar.delay tr, RankBar.duration tr))
           (RankBar.transitions r1)
         = [("B"%string, RankBar.Update, 0, 600);
            ("B"%string, RankBar.Update, 0, 600);
            ("B"%string, RankBar.Update, 0, 600);
            ("A"%string, RankBar.Update, 0, 600);
            ("A"%string, RankBar.Update, 0, 600);
            ("A"%string, RankBar.Update, 0, 600);
            ("C"%string, RankBar.Enter, 600, 400);
            ("C"%string, RankBar.Enter, 600, 400);
            ("C"%string, RankBar.Enter, 600, 400)]).
Proof.
  split; [|intros t0 t1; by split_and!].
  intros t0 t1 bars0 old new r1 Hnd.
  pose proof (ranked_NoDup new Hnd) as Hnd'.
  pose proof (rendered_keys t0 t1 bars0 old) as Hkeys.
  subst r1. unfold RankBar.render at 1 3 5 6 8 9.
  set (bars1 := RankBar.dom (RankBar.render t0 bars0 old)) in *.
  split_and!.
  - intros Ht k. rewrite draw_enter_distinct by done.
    rewrite list_elem_of_fmap. split.
    + intros (d & -> & [Hk Hd]%list_elem_of_filter). split.
      * apply ranked_keys, list_elem_of_fmap. by exists d.
      * intros Hold. by apply Hk, Hkeys.
    + intros [(d & -> & Hd)%ranked_keys%list_elem_of_fmap Hold].
      exists d. split; [done|]. apply list_elem_of_filter. split; [|done].
      intros Hk. by apply Hold, Hkeys.
  - intros k Hold (d & -> & Hd)%ranked_keys%list_elem_of_fmap.
    assert (Hk : RankBar.key d ∈ bar_keys (RankBar.selectAll t1 bars1))
      by by apply Hkeys.
    split.
    + apply list_elem_of_fmap. exists d. split; [done|].
      by apply draw_update_distinct.
    + intros tr Htr Hbar.
      apply elem_of_transitions in Htr
        as [(d' & _ & _ & _ & ? & _)|[(d' & Hd' & Hb & _)|(b & _ & _ & _ & ? & _)]];
        [done| |done].
      apply draw_enter_keys in Hd' as [_ Hd']; [|done].
      exfalso. apply Hd'. by rewrite <- Hb, Hbar.
  - intros k (d & -> & Hd)%list_elem_of_fmap tr Htr Hbar.
    apply draw_enter_keys in Hd as [_ Hd]; [|done].
    apply elem_of_transitions in Htr
      as [(d' & Hd' & Hb & _)|[(d' & _ & _ & _ & Hdl & _)|(b & Hx & Hb & _)]].
    + exfalso. apply Hd. apply draw_update_keys in Hd'.
      replace (RankBar.key d) with (RankBar.key d'); [done|].
      unfold RankBar.key in *. congruence.
    + split; [done|]. intros tr' Htr' Hsel.
      apply elem_of_transitions in Htr'
        as [(? & _ & _ & _ & ? & ?)|[(? & _ & _ & Hs & _)|(? & _ & _ & Hs & _)]];
        [lia|congruence..].
    + exfalso. apply Hd. apply draw_exit_keys in Hx.
      replace (RankBar.key d) with (RankBar.key (RankBar.datum b)); [done|].
      unfold RankBar.key in *. congruence.
Qed.

Lemma rerender_enter_after_update_witness :
  let A := {| genre := "A"; count := 5 |} in
  let B := {| genre := "B"; count := 10 |} in
  let C := {| genre := "C"; count := 1 |} in
  let r1 :=
    RankBar.render 700 (RankBar.dom (RankBar.render 0 [] [A; B])) [A; B; C] in
  NoDup (map genre [A; B; C])
  ∧ 0 + 300 ≤ 700
  ∧ ∀ k, k ∈ map genre (RankBar.enter r1)
         ↔ k ∈ map genre [A; B; C] ∧ k ∉ map genre [A; B].
Proof.
  assert (Hnd : NoDup (map genre [{| genre := "A"; count := 5 |};
                                  {| genre := "B"; count := 10 |};
                                  {| genre := "C"; count := 1 |}])).
  { apply (bool_decide_unpack _). by vm_compute. }
  assert (Ht : 0 + 300 ≤ 700) by lia.
  split; [exact Hnd|]. split; [exact Ht|].
  exact (proj1 (proj1 rerender_enter_after_update 0 700 [] _ _ Hnd) Ht).
Defined.

(** C6, as stated, fails in two ways.  A category that left the chart less
    than 300 ms ago and comes back joins its fading bar: it is keyed in the
    new data and not in the previously rendered data, and does not enter.
    Of two data of one category, the second enters although the category
    was rendered before. *)
Lemma rerender_enter_counterexample :
  let A := {| genre := "A"; count := 5 |} in
  let A' := {| genre := "A"; count := 3 |} in
  let B := {| genre := "B"; count := 10 |} in
  let r0 := RankBar.render 0 [] [A] in
  let r1 := RankBar.render 1000 (RankBar.dom r0) [B] in
  let r2 := RankBar.render 1100 (RankBar.dom r1) [A] in
  let r1' := RankBar.render 1000 (RankBar.dom r0) [A; A'] in
  (RankBar.enter r2 = [] ∧ RankBar.update r2 = [A]
   ∧ ¬ (∀ k, k ∈ map genre (RankBar.enter r2)
             ↔ k ∈ map genre [A] ∧ k ∉ map genre [B]))
  ∧ (RankBar.enter r1' = [A']
     ∧ ¬ (∀ k, k ∈ map genre (RankBar.enter r1')
               ↔ k ∈ map genre [A; A'] ∧ k ∉ map genre [A])).
Proof.
  split; (split_and!; [by vm_compute..|]); intros H.
  - specialize (H "A"%string). vm_compute in H. destruct H as [_ H].
    assert (Hin : "A"%string ∈ @nil string); [|by apply elem_of_nil in Hin].
    apply H. split; [left|].
    intros [[=]|Hn%elem_of_nil]%elem_of_cons. done.
  - specialize (H "A"%string). vm_compute in H. destruct H as [H _].
    destruct (H ltac:(left)) as [_ Hn]. apply Hn. left.
Qed.

(* ================================================================== *)
(** * Further properties of the code *)

(** ** Scroll.svelte: more on the tallies *)

Lemma genre_counts_nil (labels : list string) :
  genre_counts labels = [] ↔ labels = [].
Proof.
  split; [|by intros ->].
  intros Hnil. destruct labels as [|g labels]; [done|].
  assert (Hg : {| genre := g; count := occurrences g (g :: labels) |}
               ∈ genre_counts (g :: labels)).
  { apply elem_of_genre_counts. simpl. split; [left|done]. }
  rewrite Hnil in Hg. by apply elem_of_nil in Hg.
Qed.

Lemma sort_nil {A : Type} (cmp : A → A → Z) (l : list A) :
  JS.sort cmp l = [] ↔ l = [].
Proof.
  split; [|by intros ->]. intros Hnil.
  apply Permutation_nil_r. rewrite <- Hnil. symmetry. apply sort_Permutation.
Qed.

Lemma flat_map_nil {A B : Type} (f : A → list B) (l : list A) :
  flat_map f l = [] ↔ ∀ x, x ∈ l → f x = [].
Proof.
  induction l as [|x l IH]; simpl.
  - split; [by intros _ ? ?%elem_of_nil|done].
  - rewrite app_nil, IH. split.
    + intros [Hx Hl] y [->|Hy]%elem_of_cons; auto.
    + intros H. split; [apply H; left|]. intros y Hy. apply H. by right.
Qed.

(** X1. The single-year tally is empty exactly when the target year is 0 or
    no record of the target year carries a label; in particular it is empty
    for a year that no record has. *)
Theorem aggregateYear_empty_iff (movies : list TMovie) (y : Z) :
  Scroll.aggregateYear movies y = []
  ↔ y = 0 ∨ ∀ m, m ∈ movies → year m = y → genres m = [].
Proof.
  destruct (decide (y = 0)) as [->|Hy].
  { rewrite aggregateYear_zero. split; [by left|done]. }
  rewrite aggregateYear_unfold, sort_nil, genre_counts_nil by done.
  unfold labels_of_year. rewrite flat_map_nil. split.
  - intros H. right. intros m Hm Hym. apply H.
    by apply list_elem_of_filter.
  - intros [?|H]; [done|]. intros m [Hym Hm]%list_elem_of_filter. by apply H.
Qed.

(** X2. For every record set and every end year other than 0, the
    trailing-window tally is the tally of the labels of the records whose
    year lies in [endYear - 10, endYear]: one entry per distinct label with
    its number of occurrences, in non-increasing order of count; its counts
    sum to the number of those labels. *)
Theorem aggregateYearRange_window_tally (movies : list TMovie) (y : Z) :
  y ≠ 0 →
  is_tally_of (labels_of_window movies y) (Scroll.aggregateYearRange movies y)
  ∧ sum_list_with count (Scroll.aggregateYearRange movies y)
    = length (labels_of_window movies y).
Proof.
  intros Hy. rewrite aggregateYearRange_unfold by done.
  split; [apply sorted_genre_counts_is_tally|apply tally_counts_sum].
Qed.

Lemma aggregateYearRange_window_tally_witness :
  let movies := [movie 1989 ["Drama"]; movie 1990 ["Comedy"];
                 movie 2000 ["Action"; "Comedy"]; movie 2001 ["Drama"]] in
  2000 ≠ 0
  ∧ is_tally_of (labels_of_window movies 2000)
      (Scroll.aggregateYearRange movies 2000)
  ∧ sum_list_with count (Scroll.aggregateYearRange movies 2000)
    = length (labels_of_window movies 2000).
Proof.
  assert (H : 2000 ≠ 0) by lia.
  split; [exact H|]. exact (aggregateYearRange_window_tally _ 2000 H).
Defined.

Lemma sort_insert_filter_in {A : Type} (cmp : A → A → Z) (P : A → Prop)
    `{∀ x, Decision (P x)} (x : A) (l : list A) :
  P x → (∀ y, P y → cmp x y ≤ 0) →
  filter P (JS.sort_insert cmp x l) = x :: filter P l.
Proof.
  intros Hx Hle. induction l as [|y l IH]; simpl.
  - by rewrite filter_cons_True.
  - case_decide as Hxy.
    + by rewrite filter_cons_True.
    + rewrite !(filter_cons_False _ y), IH; [done|..];
        intros Hy; by apply Hxy, Hle.
Qed.

Lemma sort_insert_filter_out {A : Type} (cmp : A → A → Z) (P : A → Prop)
    `{∀ x, Decision (P x)} (x : A) (l : list A) :
  ¬ P x → filter P (JS.sort_insert cmp x l) = filter P l.
Proof.
  intros Hx. induction l as [|y l IH]; simpl.
  - by rewrite filter_cons_False.
  - case_decide.
    + by rewrite filter_cons_False.
    + destruct (decide (P y)).
      * by rewrite !(filter_cons_True _ y), IH.
      * by rewrite !(filter_cons_False _ y), IH.
Qed.

(** The sort is stable: the entries of one count keep their order. *)
Lemma sort_by_count_stable (c : nat) (l : list Datum) :
  filter (λ d, count d = c) (JS.sort by_count_desc l)
  = filter (λ d, count d = c) l.
Proof.
  induction l as [|x l IH]; [done|].
  unfold JS.sort in *. simpl. destruct (decide (count x = c)) as [Hx|Hx].
  - rewrite sort_insert_filter_in, IH, filter_cons_True; [done..|].
    intros y Hy. unfold by_count_desc. lia.
  - by rewrite sort_insert_filter_out, IH, filter_cons_False.
Qed.

Lemma filter_filter_ne_elem (acc : list string) (x : string)
    (l : list string) :
  x ∈ acc →
  filter (λ y, y ∉ acc) (filter (λ y, y ≠ x) l) = filter (λ y, y ∉ acc) l.
Proof.
  intros Hx. induction l as [|y l IH]; [done|].
  destruct (decide (y = x)) as [->|Hne].
  - rewrite (filter_cons_False (λ y, y ≠ x)) by (by intros ?).
    by rewrite (filter_cons_False (λ y, y ∉ acc)) by (by intros ?).
  - rewrite (filter_cons_True (λ y, y ≠ x)) by done.
    destruct (decide (y ∈ acc)).
    + by rewrite !(filter_cons_False (λ y, y ∉ acc)) by (by intros ?).
    + by rewrite !(filter_cons_True (λ y, y ∉ acc)), IH by done.
Qed.

Lemma filter_not_elem_snoc (acc : list string) (x : string)
    (l : list string) :
  filter (λ y, y ∉ acc ++ [x]) l
  = filter (λ y, y ∉ acc) (filter (λ y, y ≠ x) l).
Proof.
  induction l as [|y l IH]; [done|].
  destruct (decide (y = x)) as [->|Hne].
  - rewrite (filter_cons_False (λ y, y ≠ x)) by (by intros ?).
    rewrite filter_cons_False; [done|].
    intros Hn. apply Hn, elem_of_app. right. left.
  - rewrite (filter_cons_True (λ y, y ≠ x)) by done.
    destruct (decide (y ∈ acc)) as [Hin|Hin].
    + rewrite (filter_cons_False (λ y, y ∉ acc)) by (by intros ?).
      rewrite filter_cons_False; [done|].
      intros Hn. apply Hn, elem_of_app. by left.
    + rewrite (filter_cons_True (λ y, y ∉ acc)) by done.
      rewrite filter_cons_True; [by rewrite IH|].
      rewrite elem_of_app, list_elem_of_singleton. tauto.
Qed.

Lemma foldl_set_add_distinct (l acc : list string) :
  foldl JS.set_add acc l = acc ++ filter (λ y, y ∉ acc) (distinct l).
Proof.
  revert acc. induction l as [|x l IH]; intros acc; simpl.
  - by rewrite app_nil_r.
  - rewrite IH. unfold JS.set_add. destruct (decide (x ∈ acc)) as [Hx|Hx].
    + rewrite filter_cons_False by (by intros ?).
      by rewrite filter_filter_ne_elem.
    + rewrite filter_cons_True by done.
      rewrite <- app_assoc. simpl. by rewrite filter_not_elem_snoc.
Qed.

Lemma set_of_distinct (l : list string) : JS.set_of l = distinct l.
Proof.
  unfold JS.set_of. rewrite foldl_set_add_distinct. simpl.
  induction (distinct l) as [|y d IH]; [done|].
  rewrite filter_cons_True by apply not_elem_of_nil. by rewrite IH.
Qed.

(** X3. In the single-year tally, the entries of one count stand in the
    order in which their categories first occur in the data: for every
    target year other than 0 and every count [c], the categories of the
    entries of count [c] are, in order, the distinct labels of the year
    (in order of first occurrence) that occur [c] times. *)
Theorem aggregateYear_ties_first_occurrence (movies : list TMovie) (y : Z)
    (c : nat) :
  y ≠ 0 →
  map genre (filter (λ d, count d = c) (Scroll.aggregateYear movies y))
  = filter (λ g, occurrences g (labels_of_year movies y) = c)
      (distinct (labels_of_year movies y)).
Proof.
  intros Hy. rewrite aggregateYear_unfold, sort_by_count_stable by done.
  rewrite genre_counts_entries, set_of_distinct.
  induction (distinct (labels_of_year movies y)) as [|g d IH]; [done|].
  simpl. destruct (decide (occurrences g (labels_of_year movies y) = c)).
  - rewrite filter_cons_True by done.
    rewrite (filter_cons_True (λ g, occurrences g _ = c)) by done.
    simpl. by rewrite IH.
  - rewrite filter_cons_False by done.
    by rewrite (filter_cons_False (λ g, occurrences g _ = c)) by done.
Qed.

Lemma aggregateYear_ties_first_occurrence_witness :
  let movies := [movie 2000 ["Drama"; "Action"]; movie 2000 ["Comedy"];
                 movie 2000 ["Action"; "Western"]] in
  2000 ≠ 0
  ∧ map genre (filter (λ d, count d = 1%nat)
                 (Scroll.aggregateYear movies 2000))
    = filter (λ g, occurrences g (labels_of_year movies 2000) = 1%nat)
        (distinct (labels_of_year movies 2000))
  ∧ map genre (Scroll.aggregateYear movies 2000)
    = ["Action"; "Drama"; "Comedy"; "Western"].
Proof.
  assert (H : 2000 ≠ 0) by lia.
  split; [exact H|]. split; [|reflexivity].
  exact (aggregateYear_ties_first_occurrence _ 2000 1 H).
Defined.

(** ** RankBar.svelte: ranking again what is ranked *)

Lemma sort_Sorted_id {A : Type} (cmp : A → A → Z) (l : list A) :
  Sorted (λ a b, cmp a b ≤ 0) l → JS.sort cmp l = l.
Proof.
  unfold JS.sort. induction 1 as [|x l Hs IH Hhd]; simpl; [done|].
  rewrite IH. destruct Hhd as [|y l' Hxy]; simpl; [done|].
  by rewrite decide_True.
Qed.

Lemma aggregateYear_Sorted (movies : list TMovie) (y : Z) :
  Sorted (λ a b, by_count_desc a b ≤ 0) (Scroll.aggregateYear movies y).
Proof.
  destruct (decide (y = 0)) as [->|Hy].
  - rewrite aggregateYear_zero. constructor.
  - rewrite aggregateYear_unfold by done.
    apply sort_Sorted, by_count_desc_total.
Qed.

Lemma aggregateYearRange_Sorted (movies : list TMovie) (y : Z) :
  Sorted (λ a b, by_count_desc a b ≤ 0) (Scroll.aggregateYearRange movies y).
Proof.
  destruct (decide (y = 0)) as [->|Hy].
  - rewrite aggregateYearRange_zero. constructor.
  - rewrite aggregateYearRange_unfold by done.
    apply sort_Sorted, by_count_desc_total.
Qed.

(** X4. The bar chart ranks its data again, and this changes nothing for
    the two tallies [Scroll] hands to it, nor for data already ranked: the
    order of the bars is the order of the tally, ties included. *)
Theorem ranked_keeps_tallies (movies : list TMovie) (y : Z)
    (data : list Datum) :
  RankBar.ranked (Scroll.aggregateYear movies y)
  = Scroll.aggregateYear movies y
  ∧ RankBar.ranked (Scroll.aggregateYearRange movies y)
    = Scroll.aggregateYearRange movies y
  ∧ RankBar.ranked (RankBar.ranked data) = RankBar.ranked data.
Proof.
  unfold RankBar.ranked. split_and!; apply sort_Sorted_id.
  - apply aggregateYear_Sorted.
  - apply aggregateYearRange_Sorted.
  - apply sort_Sorted, by_count_desc_total.
Qed.

(** ** Scroll.svelte: the tracker run twice *)

(** X5. The scroll handler is idempotent: on an unchanged layout a second
    run of [findVisibleYear] leaves the current year where the first run
    put it, whatever the year was before. *)
Theorem findVisibleYear_idempotent (innerHeight : Q)
    (steps : list Scroll.Step) (currentYear : Z) :
  Scroll.findVisibleYear innerHeight steps
    (Scroll.findVisibleYear innerHeight steps currentYear)
  = Scroll.findVisibleYear innerHeight steps currentYear.
Proof.
  unfold Scroll.findVisibleYear.
  destruct (length steps =? 0)%nat; [done|].
  destruct (Scroll.closestStep innerHeight steps) as [step|]; [|done].
  destruct (Scroll.yearHeader step) as [text|]; [|done].
  destruct (JS.parseInt _) as [newYear|]; [|done].
  destruct (decide (newYear ≠ currentYear)) as [Hne|Heq].
  - by rewrite decide_False by (by intros ?).
  - apply dec_stable in Heq. subst. by rewrite decide_False by (by intros ?).
Qed.

(** ** RankBar.svelte: what the join does with every datum and bar *)

Lemma entering_update_Permutation (joined : list (Datum * option nat)) :
  map fst (RankBar.entering joined)
  ++ omap (λ dm : Datum * option nat,
             match dm.2 with Some _ => Some dm.1 | None => None end) joined
  ≡ₚ map fst joined.
Proof.
  induction joined as [|[d m] joined IH]; [done|].
  rewrite entering_cons. simpl. destruct m as [p|]; simpl.
  - by rewrite <- Permutation_middle, IH.
  - by rewrite IH.
Qed.

(** X6. Every datum drawn is bound to exactly one bar: the entering and the
    updating data of a draw are together a rearrangement of its data
    (repeated categories included). *)
Theorem draw_enter_update_partition (now : Z) (bars : list RankBar.Bar)
    (data : list Datum) :
  RankBar.enter (RankBar.draw now bars data)
  ++ RankBar.update (RankBar.draw now bars data)
  ≡ₚ data.
Proof.
  unfold RankBar.draw. simpl. rewrite entering_update_Permutation.
  by rewrite join_data.
Qed.

Lemma NoDup_keys_lookup (group : list RankBar.Bar) (p q : nat)
    (b c : RankBar.Bar) :
  NoDup (bar_keys group) →
  group !! p = Some b → group !! q = Some c →
  RankBar.key (RankBar.datum b) = RankBar.key (RankBar.datum c) →
  p = q.
Proof.
  intros Hnd Hp Hq Hk. eapply NoDup_lookup; [exact Hnd| |].
  - unfold bar_keys. rewrite list_lookup_fmap, Hp. done.
  - unfold bar_keys. rewrite list_lookup_fmap, Hq. simpl. by rewrite Hk.
Qed.

(** With one bar per key, a bar is rebound exactly when the data have its
    key. *)
Lemma bound_None_distinct (group : list RankBar.Bar) (data : list Datum)
    (p : nat) (b : RankBar.Bar) :
  NoDup (bar_keys group) →
  group !! p = Some b →
  RankBar.bound (RankBar.join group [] data) p = None
  ↔ RankBar.key (RankBar.datum b) ∉ map RankBar.key data.
Proof.
  intros Hnd Hp. split.
  - intros Hb (d & Hk & Hd)%list_elem_of_fmap.
    destruct (join_covers group data [] d Hd) as (d' & p' & Hin & Hk').
    + by intros ?%elem_of_nil.
    + rewrite <- Hk. apply list_elem_of_fmap. exists b. split; [done|].
      by eapply list_elem_of_lookup_2.
    + destruct (join_Some _ _ _ _ _ Hin) as (b' & [Hp' Hkb']%first_bar_Some).
      assert (p' = p) as ->.
      { eapply NoDup_keys_lookup; [done..|]. congruence. }
      destruct (bound_is_Some _ _ _ Hin) as [? Hsome]. congruence.
  - intros Hk. destruct (RankBar.bound _ p) as [d|] eqn:Hb; [|done].
    exfalso. apply Hk.
    pose proof (bound_Some _ _ _ Hb) as Hin.
    destruct (join_Some _ _ _ _ _ Hin) as (b' & [Hp' Hkb']%first_bar_Some).
    rewrite Hp in Hp'. injection Hp' as <-. rewrite Hkb'.
    apply list_elem_of_fmap. exists d. split; [done|].
    by eapply elem_of_join_data.
Qed.

Lemma omap_imap_filter {A B : Type} (t : nat → option B) (P : A → Prop)
    `{∀ x, Decision (P x)} (l : list A) :
  ∀ g : nat → nat,
    (∀ i b, l !! i = Some b → (t (g i) = None ↔ P b)) →
    omap (λ pb : nat * A,
            match t pb.1 with Some _ => None | None => Some pb.2 end)
      (imap (λ i b, (g i, b)) l)
    = filter P l.
Proof.
  induction l as [|x l IH]; intros g Hg; [done|].
  pose proof (IH (g ∘ S) (λ i b Hi, Hg (S i) b Hi)) as Hrec.
  cbn [imap omap]. unfold compose in *. simpl.
  change (list_omap (nat * A)%type A) with (@omap list _ (nat * A)%type A).
  rewrite Hrec. destruct (t (g 0%nat)) as [y|] eqn:Ht.
  - rewrite filter_cons_False; [done|].
    intros HP. apply (Hg 0%nat x) in HP; [congruence|done].
  - rewrite filter_cons_True; [done|]. by apply (Hg 0%nat x).
Qed.

(** X7. When the chart holds one bar per category, the bars that exit on a
    draw are exactly the bars in the document whose category is not in the
    new data, in document order. *)
Theorem draw_exit_distinct (now : Z) (bars : list RankBar.Bar)
    (data : list Datum) :
  NoDup (bar_keys (RankBar.selectAll now bars)) →
  RankBar.exit (RankBar.draw now bars data)
  = filter (λ b, RankBar.key (RankBar.datum b) ∉ map RankBar.key data)
      (RankBar.selectAll now bars).
Proof.
  intros Hnd. unfold RankBar.draw. simpl.
  apply (omap_imap_filter
           (RankBar.bound (RankBar.join (RankBar.selectAll now bars) [] data))
           _ _ (λ i, i)).
  intros p b Hp. by apply bound_None_distinct.
Qed.

Lemma draw_exit_distinct_witness :
  let A := {| genre := "A"; count := 5 |} in
  let B := {| genre := "B"; count := 10 |} in
  let C := {| genre := "C"; count := 1 |} in
  let bars := RankBar.dom (RankBar.draw 0 [] [B; A; C]) in
  NoDup (bar_keys (RankBar.selectAll 1000 bars))
  ∧ RankBar.exit (RankBar.draw 1000 bars [C; B])
    = filter (λ b, RankBar.key (RankBar.datum b) ∉ map RankBar.key [C; B])
        (RankBar.selectAll 1000 bars)
  ∧ RankBar.exit (RankBar.draw 1000 bars [C; B])
    = [{| RankBar.datum := A; RankBar.removal := None |}].
Proof.
  intros A B C bars.
  assert (Hnd : NoDup (bar_keys (RankBar.selectAll 1000 bars))).
  { apply (bool_decide_unpack _). by vm_compute. }
  split; [exact Hnd|]. split; [|reflexivity].
  exact (draw_exit_distinct 1000 bars [C; B] Hnd).
Defined.

Lemma NoDup_map_filter {A B : Type} (f : A → B) (P : A → Prop)
    `{∀ x, Decision (P x)} (l : list A) :
  NoDup (map f l) → NoDup (map f (filter P l)).
Proof.
  induction l as [|x l IH]; [done|]. simpl.
  intros [Hx Hnd]%NoDup_cons. destruct (decide (P x)).
  - rewrite filter_cons_True by done. simpl. apply NoDup_cons.
    split; [|by apply IH].
    intros (y & Hy & [_ Hin]%list_elem_of_filter)%list_elem_of_fmap.
    apply Hx, list_elem_of_fmap. by exists y.
  - rewrite filter_cons_False by done. by apply IH.
Qed.

(** A bar keeps its key through a draw. *)
Lemma rebind_key (now : Z) (group : list RankBar.Bar) (data : list Datum)
    (p : nat) (b : RankBar.Bar) :
  group !! p = Some b →
  RankBar.key (RankBar.datum
                 (RankBar.rebind now (RankBar.join group [] data) p b))
  = RankBar.key (RankBar.datum b).
Proof.
  intros Hp. unfold RankBar.rebind.
  destruct (RankBar.bound _ p) as [d|] eqn:Hb; [|done]. simpl.
  apply bound_Some, join_Some in Hb as (b' & [Hp' Hk]%first_bar_Some).
  congruence.
Qed.

Lemma bar_keys_rebind (now : Z) (group : list RankBar.Bar)
    (data : list Datum) :
  bar_keys (imap (RankBar.rebind now (RankBar.join group [] data)) group)
  = bar_keys group.
Proof.
  apply list_eq. intros p. unfold bar_keys.
  rewrite !list_lookup_fmap, list_lookup_imap.
  destruct (group !! p) as [b|] eqn:Hp; [|done]. simpl.
  by rewrite rebind_key.
Qed.

Lemma draw_dom_keys (now : Z) (bars : list RankBar.Bar)
    (data : list Datum) :
  bar_keys (RankBar.dom (RankBar.draw now bars data))
  ≡ₚ bar_keys (RankBar.selectAll now bars)
     ++ map RankBar.key (RankBar.enter (RankBar.draw now bars data)).
Proof.
  unfold bar_keys at 1. rewrite draw_dom_Permutation, map_app, map_map.
  apply Permutation_app; [|done].
  fold (bar_keys (imap (RankBar.rebind now
          (RankBar.join (RankBar.selectAll now bars) [] data))
          (RankBar.selectAll now bars))).
  by rewrite bar_keys_rebind.
Qed.

(** X8. The chart never holds two bars of one category: if the bars have
    pairwise distinct categories and so have the data drawn, the bars after
    the draw (exiting ones included) have pairwise distinct categories. *)
Theorem draw_keeps_one_bar_per_key (now : Z) (bars : list RankBar.Bar)
    (data : list Datum) :
  NoDup (bar_keys bars) →
  NoDup (map RankBar.key data) →
  NoDup (bar_keys (RankBar.dom (RankBar.draw now bars data))).
Proof.
  intros Hbars Hdata.
  assert (Hgroup : NoDup (bar_keys (RankBar.selectAll now bars)))
    by by apply NoDup_map_filter.
  rewrite draw_dom_keys. apply NoDup_app. split_and!; [done| |].
  - intros k Hk (d & -> & Hd)%list_elem_of_fmap.
    by apply draw_enter_keys in Hd as [_ Hd].
  - rewrite draw_enter_distinct by done. by apply NoDup_map_filter.
Qed.

Lemma draw_keeps_one_bar_per_key_witness :
  let A := {| genre := "A"; count := 5 |} in
  let B := {| genre := "B"; count := 10 |} in
  let C := {| genre := "C"; count := 1 |} in
  let bars := RankBar.dom (RankBar.draw 0 [] [B; A]) in
  NoDup (bar_keys bars)
  ∧ NoDup (map RankBar.key [C; A])
  ∧ NoDup (bar_keys (RankBar.dom (RankBar.draw 100 bars [C; A]))).
Proof.
  intros A B C bars.
  assert (Hb : NoDup (bar_keys bars))
    by (apply (bool_decide_unpack _); by vm_compute).
  assert (Hd : NoDup (map RankBar.key [C; A]))
    by (apply (bool_decide_unpack _); by vm_compute).
  split; [exact Hb|]. split; [exact Hd|].
  exact (draw_keeps_one_bar_per_key 100 bars [C; A] Hb Hd).
Defined.

(** ** GenreHeatmap.svelte: the matrix in general *)













(** ** GenreHeatmap.svelte: the order of the genres and the colour domain *)






Lemma max_ge (values : list Z) (v : Z) :
  v ∈ values → ∃ m, D3.max values = Some m ∧ v ≤ m.
Proof.
  unfold D3.max.
  assert (Hgen : ∀ l acc,
            (∀ a, acc = Some a →
               ∃ m, foldl (λ mx x, match mx with
                                   | None => Some x
                                   | Some m => if m <? x then Some x else mx
                                   end) acc l = Some m ∧ a ≤ m)
            ∧ (v ∈ l →
               ∃ m, foldl (λ mx x, match mx with
                                   | None => Some x
                                   | Some m => if m <? x then Some x else mx
                                   end) acc l = Some m ∧ v ≤ m)).
  { induction l as [|x l IH]; intros acc; simpl.
    - split; [intros a ->; by exists a|by intros ?%elem_of_nil].
    - split.
      + intros a ->. destruct (a <? x) eqn:Hax.
        * destruct (proj1 (IH (Some x)) x eq_refl) as (m & -> & Hm).
          exists m. split; [done|]. apply Z.ltb_lt in Hax. lia.
        * by apply (IH (Some a)).
      + intros [->|Hv]%elem_of_cons; [|by apply IH].
        destruct acc as [a|].
        * destruct (a <? x) eqn:Hax.
          -- by apply (proj1 (IH (Some x))).
          -- destruct (proj1 (IH (Some a)) a eq_refl) as (m & -> & Hm).
             exists m. split; [done|]. apply Z.ltb_ge in Hax. lia.
        * by apply (proj1 (IH (Some x))). }
  apply Hgen.
Qed.



(** ** RankedLine.svelte: the labels at the ends of the lines *)

Lemma by_lineY_le (a b : RankedLine.Label.t) :
  RankedLine.by_lineY a b ≤ 0
  ↔ (RankedLine.Label.lineY a <= RankedLine.Label.lineY b)%Q.
Proof.
  unfold RankedLine.by_lineY.
  rewrite (Qle_minus_iff (RankedLine.Label.lineY a)).
  set (x := RankedLine.Label.lineY a). set (y := RankedLine.Label.lineY b).
  assert (Hneg : Qnum (y + - x)%Q = - Qnum (x - y)%Q).
  { unfold Qminus, Qplus, Qopp. simpl. lia. }
  unfold Qle at 1. simpl (Qnum 0). simpl (QDen 0).
  rewrite Z.mul_0_l, Z.mul_1_r, Hneg. lia.
Qed.

Lemma adjust_genres (previous : option Q) (l : list RankedLine.Label.t) :
  map RankedLine.Label.genre (RankedLine.adjust previous l)
  = map RankedLine.Label.genre l.
Proof.
  revert previous. induction l as [|d l IH]; intros previous; [done|].
  simpl. by rewrite IH.
Qed.

Lemma adjust_lineY (previous : option Q) (l : list RankedLine.Label.t) :
  map RankedLine.Label.lineY (RankedLine.adjust previous l)
  = map RankedLine.Label.lineY l.
Proof.
  revert previous. induction l as [|d l IH]; intros previous; [done|].
  simpl. by rewrite IH.
Qed.

Lemma adjust_spaced (previous : option Q) (l : list RankedLine.Label.t) :
  let spaced (ya : Q) (b : RankedLine.Label.t) :=
    ∃ yb, RankedLine.Label.labelY b = Some yb
          ∧ (ya + 12 <= yb)%Q
          ∧ ((RankedLine.Label.lineY b < yb)%Q → (yb == ya + 12)%Q) in
  Forall (λ d, ∃ y, RankedLine.Label.labelY d = Some y
                    ∧ (RankedLine.Label.lineY d <= y)%Q)
         (RankedLine.adjust previous l)
  ∧ Sorted (λ a b, ∃ ya, RankedLine.Label.labelY a = Some ya ∧ spaced ya b)
           (RankedLine.adjust previous l)
  ∧ ∀ d, head (RankedLine.adjust previous l) = Some d →
         match previous with
         | None => RankedLine.Label.labelY d = Some (RankedLine.Label.lineY d)
         | Some ya => spaced ya d
         end.
Proof.
  intros spaced. revert previous.
  induction l as [|d l IH]; intros previous.
  { simpl. split_and!; [constructor..|done]. }
  cbn [RankedLine.adjust].
  set (labelY := match previous with
                 | None => RankedLine.Label.lineY d
                 | Some y => Qmax (RankedLine.Label.lineY d)
                                  (y + RankedLine.minSpacing)
                 end).
  destruct (IH (Some labelY)) as (Hall & Hsorted & Hhead).
  split_and!.
  - constructor; [|done]. exists labelY. split; [done|]. simpl.
    subst labelY. destruct previous; [apply Q.le_max_l|apply Qle_refl].
  - constructor; [done|].
    destruct (RankedLine.adjust (Some labelY) l) as [|b l'] eqn:Hl;
      constructor.
    exists labelY. split; [done|]. by apply Hhead.
  - intros d' [= <-]. simpl. subst labelY.
    destruct previous as [ya|]; [|done].
    eexists. split; [done|]. split; [apply Q.le_max_r|].
    intros Hlt.
    destruct (Q.max_spec (RankedLine.Label.lineY d)
                         (ya + RankedLine.minSpacing)) as [[_ Heq]|[_ Heq]].
    + exact Heq.
    + exfalso. apply (Qlt_irrefl (RankedLine.Label.lineY d)).
      eapply Qlt_le_trans; [exact Hlt|].
      apply Qle_lteq. right. exact Heq.
Qed.

(** X14. The labels at the ends of the lines never overlap, whatever the
    two scales are: the labels are placed in the order of the ends of their
    lines from the top, every label sits at the end of its line or below
    it, the first one at the end of its line; each label is at least 12
    below the label before it, and a label that is moved away from the end
    of its line sits exactly 12 below the label before it. *)
Theorem labels_spaced (xScale yScale : Z → Q) (movies : list TMovie) :
  let labels := RankedLine.significantLabels xScale yScale movies in
  Forall (λ d, ∃ y, RankedLine.Label.labelY d = Some y
                    ∧ (RankedLine.Label.lineY d <= y)%Q) labels
  ∧ Sorted (λ a b, (RankedLine.Label.lineY a <= RankedLine.Label.lineY b)%Q)
           labels
  ∧ Sorted (λ a b, ∃ ya yb,
              RankedLine.Label.labelY a = Some ya
              ∧ RankedLine.Label.labelY b = Some yb
              ∧ (ya + 12 <= yb)%Q
              ∧ ((RankedLine.Label.lineY b < yb)%Q → (yb == ya + 12)%Q))
           labels
  ∧ ∀ d, head labels = Some d →
         RankedLine.Label.labelY d = Some (RankedLine.Label.lineY d).
Proof.
  intros labels. subst labels. unfold RankedLine.significantLabels.
  destruct (_ || _).
  { split_and!; [constructor..|done]. }
  set (l := JS.sort RankedLine.by_lineY _).
  destruct (adjust_spaced None l) as (Hall & Hsorted & Hhead).
  split_and!; [done| | |done].
  2:{ eapply Sorted_weaken; [|exact Hsorted].
      intros a b (ya & Ha & yb & Hb). by exists ya, yb. }
  - assert (Hl : Sorted (λ a b, (RankedLine.Label.lineY a
                                  <= RankedLine.Label.lineY b)%Q) l).
    { eapply Sorted_weaken; [|apply sort_Sorted].
      - intros a b. apply by_lineY_le.
      - intros a b Hab. apply by_lineY_le, Qlt_le_weak, Qnot_le_lt.
        intros Hle%by_lineY_le. lia. }
    apply (Sorted_fmap RankedLine.Label.lineY _ Qle) in Hl; [|done].
    rewrite <- (adjust_lineY None) in Hl.
    clear -Hl. induction (RankedLine.adjust None l) as [|a l' IH];
      [constructor|].
    inversion Hl as [|? ? Hl' Hhd]; subst. constructor; [by apply IH|].
    destruct l'; constructor. by inversion Hhd.
Qed.

Lemma last_points_from (g : string) (yds : list RankedLine.YearData.t)
    (c : Z) :
  yds ≠ [] →
  ∃ p, last (points_from g c yds) = Some p
       ∧ RankedLine.Point.cumulative p
         = c + foldr (λ yd acc, bonus g yd + acc) 0 yds.
Proof.
  revert c. induction yds as [|yd yds IH]; intros c Hne; [done|].
  destruct yds as [|yd' yds].
  - eexists. split; [done|]. simpl. lia.
  - destruct (IH (c + bonus g yd)) as (p & Hp & Hc); [done|].
    exists p. split; [exact Hp|]. rewrite Hc. simpl. lia.
Qed.

Lemma yearData_nonempty (m : TMovie) (movies : list TMovie) :
  RankedLine.yearData_of (m :: movies) ≠ [].
Proof.
  intros Hnil.
  assert (Hin : year m ∈ map RankedLine.YearData.year
                           (RankedLine.yearData_of (m :: movies))).
  { rewrite yearData_years_Permutation, elem_of_set_of. left. }
  rewrite Hnil in Hin. by apply elem_of_nil in Hin.
Qed.

Lemma last_trajectory (m : TMovie) (movies : list TMovie) (g : string) :
  ∃ p, last (RankedLine.trajectory (RankedLine.yearData_of (m :: movies)) g)
       = Some p
       ∧ RankedLine.Point.cumulative p = final_score (m :: movies) g.
Proof.
  rewrite trajectory_points.
  destruct (last_points_from g (RankedLine.yearData_of (m :: movies)) 0)
    as (p & Hp & Hc); [apply yearData_nonempty|].
  exists p. split; [done|]. rewrite Hc, Z.add_0_l.
  unfold final_score. rewrite processedData_nonempty. simpl.
  by apply score_bonus.
Qed.

(** The entries of [labelData] before the sort: one for every genre, with
    its final score. *)
Lemma label_entries (xScale yScale : Z → Q) (m : TMovie)
    (movies : list TMovie) (all : list string) (l : list string) (k : nat) :
  map (λ d, (RankedLine.Label.genre d, RankedLine.Label.cumulative d))
      (omap id
         (imap
            (λ idx trajectory,
               match last trajectory with
               | None => None
               | Some p =>
                   Some {| RankedLine.Label.genre := all !!! (k + idx)%nat;
                           RankedLine.Label.lineX :=
                             xScale (RankedLine.Point.year p);
                           RankedLine.Label.lineY :=
                             yScale (RankedLine.Point.cumulative p);
                           RankedLine.Label.cumulative :=
                             RankedLine.Point.cumulative p;
                           RankedLine.Label.color := ((k + idx) mod 10)%nat;
                           RankedLine.Label.labelY := None |}
               end)
            (map (RankedLine.trajectory
                    (RankedLine.yearData_of (m :: movies))) l)))
  = imap (λ idx g, (all !!! (k + idx)%nat, final_score (m :: movies) g)) l.
Proof.
  revert k. induction l as [|g l IH]; intros k; [done|].
  cbn [map imap].
  destruct (last_trajectory m movies g) as (p & -> & Hc).
  cbn [omap list_omap id map]. rewrite Hc. f_equal.
  etrans; [|etrans; [exact (IH (S k))|]].
  - f_equal. f_equal. apply imap_ext. intros i t _. simpl.
    destruct (last t); [|done]. by rewrite Nat.add_succ_r.
  - apply imap_ext. intros i h _. simpl. by rewrite Nat.add_succ_r.
Qed.

Lemma imap_lookup_total_map {A B : Type} `{Inhabited A} (f : A → B)
    (l : list A) :
  imap (λ i x, (l !!! i, f x)) l = map (λ x, (x, f x)) l.
Proof.
  apply list_eq. intros i.
  change (map (λ x, (x, f x)) l) with ((λ x, (x, f x)) <$> l).
  rewrite list_lookup_imap, list_lookup_fmap.
  destruct (l !! i) as [x|] eqn:Hi; [|done]. simpl.
  by rewrite (list_lookup_total_correct l i x Hi).
Qed.

Lemma labelData_entries (xScale yScale : Z → Q) (m : TMovie)
    (movies : list TMovie) :
  map (λ d, (RankedLine.Label.genre d, RankedLine.Label.cumulative d))
      (RankedLine.labelData xScale yScale (m :: movies))
  ≡ₚ map (λ g, (g, final_score (m :: movies) g))
         (RankedLine.genres (m :: movies)).
Proof.
  unfold RankedLine.labelData. rewrite sort_Permutation.
  rewrite processedData_nonempty. cbn [RankedLine.genreTrajectories].
  pose proof (label_entries xScale yScale m movies
                (RankedLine.genres (m :: movies))
                (RankedLine.genres (m :: movies)) 0) as Hentries.
  cbn [Nat.add] in Hentries. rewrite Hentries.
  by rewrite imap_lookup_total_map.
Qed.

Lemma filter_fmap_length {A B : Type} (f : A → B) (P : B → Prop)
    `{∀ x, Decision (P x)} (l : list A) :
  length (filter P (map f l)) = length (filter (λ x, P (f x)) l).
Proof.
  induction l as [|x l IH]; [done|]. simpl.
  rewrite !filter_cons. destruct (decide (P (f x))); simpl; by rewrite IH.
Qed.

Lemma filter_none {A : Type} (P : A → Prop) `{∀ x, Decision (P x)}
    (l : list A) :
  Forall (λ x, ¬ P x) l → filter P l = [].
Proof.
  induction 1 as [|x l Hx Hl IH]; [done|]. by rewrite filter_cons_False.
Qed.

Lemma sorted_rank_le (cs : list Z) (k : nat) (c8 c : Z) :
  StronglySorted (λ a b, b ≤ a) cs → cs !! k = Some c8 → c8 ≤ c →
  (length (filter (λ x, (c < x)%Z) cs) ≤ k)%nat.
Proof.
  intros Hs. revert k. induction Hs as [|x l Hs IH Hx]; intros k; [done|].
  rewrite filter_cons. destruct k as [|k]; simpl.
  - intros [= ->] Hc. rewrite decide_False by lia.
    rewrite filter_none; [done|].
    eapply Forall_impl; [exact Hx|]. simpl. lia.
  - intros Hk Hc. specialize (IH k Hk Hc).
    destruct (decide (c < x)); simpl; lia.
Qed.

Lemma sorted_rank_gt (cs : list Z) (k : nat) (c8 c : Z) :
  StronglySorted (λ a b, b ≤ a) cs → cs !! k = Some c8 → c < c8 →
  (k < length (filter (λ x, (c < x)%Z) cs))%nat.
Proof.
  intros Hs. revert k. induction Hs as [|x l Hs IH Hx]; intros k; [done|].
  rewrite filter_cons. destruct k as [|k]; simpl.
  - intros [= ->] Hc. rewrite decide_True by lia. simpl. lia.
  - intros Hk Hc. specialize (IH k Hk Hc).
    rewrite Forall_forall in Hx.
    assert (c8 ≤ x) by (apply Hx; by eapply list_elem_of_lookup_2).
    rewrite decide_True by lia. simpl. lia.
Qed.

(** In a list in non-increasing order, an element reaches the element of
    index [min 7 (length - 1)] exactly when fewer than eight elements are
    strictly greater. *)
Lemma top_ranks (cs : list Z) (c : Z) :
  StronglySorted (λ a b, b ≤ a) cs → c ∈ cs →
  ∃ c8, cs !! Z.to_nat (Z.min 7 (Z.of_nat (length cs) - 1)) = Some c8
        ∧ (c8 ≤ c ↔ (length (filter (λ x, (c < x)%Z) cs) < 8)%nat).
Proof.
  intros Hs Hc.
  assert (Hlen : (0 < length cs)%nat)
    by (destruct cs; [by apply elem_of_nil in Hc|simpl; lia]).
  set (k := Z.to_nat (Z.min 7 (Z.of_nat (length cs) - 1))).
  destruct (lookup_lt_is_Some_2 cs k) as [c8 Hc8]; [subst k; lia|].
  exists c8. split; [done|]. split.
  - intros Hle. pose proof (sorted_rank_le cs k c8 c Hs Hc8 Hle).
    subst k. lia.
  - intros Hlt. destruct (decide (c8 ≤ c)) as [|Hn]; [done|]. exfalso.
    pose proof (sorted_rank_gt cs k c8 c Hs Hc8 ltac:(lia)).
    pose proof (length_filter_lt (λ x, c < x) cs c Hc ltac:(simpl; lia)).
    subst k. lia.
Qed.

Lemma labelData_sorted (xScale yScale : Z → Q) (movies : list TMovie) :
  StronglySorted (λ a b, b ≤ a)
    (map RankedLine.Label.cumulative
         (RankedLine.labelData xScale yScale movies)).
Proof.
  apply Sorted_StronglySorted; [intros a b c; lia|].
  apply (Sorted_fmap RankedLine.Label.cumulative
           (λ a b, RankedLine.Label.cumulative b
                   ≤ RankedLine.Label.cumulative a) (λ a b, b ≤ a));
    [done|].
  unfold RankedLine.labelData.
  eapply Sorted_weaken; [|apply sort_Sorted].
  - intros a b. simpl. lia.
  - intros a b. simpl. lia.
Qed.

Lemma threshold_outscoring (xScale yScale : Z → Q) (m : TMovie)
    (movies : list TMovie) (g : string) :
  g ∈ RankedLine.genres (m :: movies) →
  RankedLine.threshold (RankedLine.labelData xScale yScale (m :: movies))
  ≤ final_score (m :: movies) g
  ↔ 5 ≤ final_score (m :: movies) g ∧ (outscoring (m :: movies) g < 8)%nat.
Proof.
  intros Hg.
  set (L := RankedLine.labelData xScale yScale (m :: movies)).
  set (cs := map RankedLine.Label.cumulative L).
  assert (Hperm : cs ≡ₚ map (final_score (m :: movies))
                            (RankedLine.genres (m :: movies))).
  { pose proof (labelData_entries xScale yScale m movies) as HE.
    apply (Permutation_map snd) in HE. rewrite !map_map in HE.
    exact HE. }
  assert (Hc : final_score (m :: movies) g ∈ cs).
  { rewrite Hperm. apply list_elem_of_fmap. by exists g. }
  destruct (top_ranks cs _ (labelData_sorted xScale yScale (m :: movies)) Hc)
    as (c8 & Hc8 & Hiff).
  assert (Hlen : length cs = length L) by apply length_map.
  assert (Hpos : (0 < length cs)%nat)
    by (destruct cs; [by apply elem_of_nil in Hc|simpl; lia]).
  assert (Hthr : RankedLine.threshold L = Z.max 5 c8).
  { assert (HL : ∀ k, cs !! k = RankedLine.Label.cumulative <$> L !! k)
      by (intros k; apply list_lookup_fmap).
    rewrite HL in Hc8.
    unfold RankedLine.threshold. cbv zeta. rewrite <- Hlen.
    destruct (Z.ltb_spec (Z.min 7 (Z.of_nat (length cs) - 1)) 0); [lia|].
    by rewrite Hc8. }
  assert (Hout : outscoring (m :: movies) g
                 = length (filter (λ x, final_score (m :: movies) g < x) cs)).
  { unfold outscoring.
    rewrite <- (filter_fmap_length (final_score (m :: movies))
                  (λ x, final_score (m :: movies) g < x)).
    apply Permutation_length. by rewrite Hperm. }
  rewrite Hthr, Hout, <- Hiff. lia.
Qed.

(** X15. Which genres get a label at the end of their line: exactly the
    genres of the records whose final score (the value of the last point of
    the trajectory) is at least 5 and that fewer than eight genres
    outscore. *)
Theorem labelled_genres (xScale yScale : Z → Q) (movies : list TMovie)
    (g : string) :
  g ∈ map RankedLine.Label.genre
          (RankedLine.significantLabels xScale yScale movies)
  ↔ g ∈ RankedLine.genres movies
    ∧ 5 ≤ final_score movies g
    ∧ (outscoring movies g < 8)%nat.
Proof.
  destruct movies as [|m ms].
  { split; [by intros ?%elem_of_nil|by intros [?%elem_of_nil _]]. }
  unfold RankedLine.significantLabels.
  assert (Hguard : (length (m :: ms) =? 0)%nat
                   || (length (RankedLine.yearData
                                 (RankedLine.processedData (m :: ms))) =? 0)%nat
                   = false).
  { rewrite processedData_nonempty. simpl.
    destruct (RankedLine.yearData_of (m :: ms)) eqn:E; [|done].
    by apply yearData_nonempty in E. }
  rewrite Hguard, adjust_genres.
  set (L := RankedLine.labelData xScale yScale (m :: ms)).
  assert (Hmem : ∀ d, d ∈ L →
            RankedLine.Label.genre d ∈ RankedLine.genres (m :: ms)
            ∧ RankedLine.Label.cumulative d
              = final_score (m :: ms) (RankedLine.Label.genre d)).
  { intros d Hd.
    assert (Hin : (RankedLine.Label.genre d, RankedLine.Label.cumulative d)
                  ∈ map (λ g, (g, final_score (m :: ms) g))
                        (RankedLine.genres (m :: ms))).
    { rewrite <- labelData_entries. apply list_elem_of_fmap. by exists d. }
    apply list_elem_of_fmap in Hin as (h & [= Hh Hc] & Hin).
    rewrite Hh, Hc. done. }
  rewrite list_elem_of_fmap. split.
  - intros (d & -> & Hd).
    rewrite sort_Permutation, list_elem_of_filter in Hd.
    destruct Hd as [Hthr Hd]. destruct (Hmem d Hd) as [Hg Hc].
    split; [done|]. apply (threshold_outscoring xScale yScale); [done|].
    by rewrite <- Hc.
  - intros (Hg & Hscore).
    apply (threshold_outscoring xScale yScale) in Hscore; [|done].
    assert (Hin : (g, final_score (m :: ms) g)
                  ∈ map (λ d, (RankedLine.Label.genre d,
                               RankedLine.Label.cumulative d)) L).
    { subst L. rewrite labelData_entries. apply list_elem_of_fmap.
      by exists g. }
    apply list_elem_of_fmap in Hin as (d & [= Hh Hc] & Hd).
    exists d. split; [done|].
    rewrite sort_Permutation, list_elem_of_filter. split; [|done].
    by rewrite <- Hc.
Qed.

(** ** RankedLine.svelte: the domains of the scales and the size of the
    scores *)

Lemma max_elem_of (values : list Z) (m : Z) :
  D3.max values = Some m → m ∈ values.
Proof.
  unfold D3.max.
  assert (Hgen : ∀ l acc,
            foldl (λ mx x, match mx with
                           | None => Some x
                           | Some m => if m <? x then Some x else mx
                           end) acc l = Some m →
            acc = Some m ∨ m ∈ l).
  { induction l as [|x l IH]; intros acc; simpl; [by left|].
    intros [Hacc|Hin]%IH; [|right; by right].
    destruct acc as [a|]; [destruct (a <? x)|].
    - injection Hacc as ->. right. left.
    - by left.
    - injection Hacc as ->. right. left. }
  intros [?|?]%Hgen; done.
Qed.



Lemma award_le_3 (r : list Datum) (g : string) : award r g ≤ 3.
Proof.
  unfold award. destruct (fst <$> list_find _ r) as [[|[|[|n]]]|]; lia.
Qed.

Lemma points_from_bounds (g : string) (yds : list RankedLine.YearData.t)
    (c : Z) (k : nat) (p : RankedLine.Point.t) :
  (∀ yd, yd ∈ yds → 0 ≤ bonus g yd ≤ 3) →
  points_from g c yds !! k = Some p →
  c ≤ RankedLine.Point.cumulative p ≤ c + 3 * (Z.of_nat k + 1)
  ∧ ∀ q, points_from g c yds !! S k = Some q →
         RankedLine.Point.cumulative p ≤ RankedLine.Point.cumulative q
         ≤ RankedLine.Point.cumulative p + 3.
Proof.
  revert c k. induction yds as [|yd yds IH]; intros c k Hb; [done|].
  assert (0 ≤ bonus g yd ≤ 3) by (apply Hb; left).
  assert (Hb' : ∀ yd', yd' ∈ yds → 0 ≤ bonus g yd' ≤ 3)
    by (intros yd' ?; apply Hb; by right).
  destruct k as [|k]; simpl.
  - intros [= <-]. simpl. split; [lia|].
    destruct yds as [|yd' yds]; [done|]. simpl. intros q [= <-]. simpl.
    assert (0 ≤ bonus g yd' ≤ 3) by (apply Hb'; left). lia.
  - intros Hp. destruct (IH _ _ Hb' Hp) as [Hc Hq].
    split; [lia|]. exact Hq.
Qed.

Lemma bonus_bounds (movies : list TMovie) (g : string)
    (yd : RankedLine.YearData.t) :
  yd ∈ RankedLine.yearData_of movies → 0 ≤ bonus g yd ≤ 3.
Proof.
  intros Hyd. rewrite (bonus_yearData _ _ _ Hyd).
  split; [apply award_nonneg|apply award_le_3].
Qed.




(** X17. A year adds at most 3 to the score of a genre: the score at the
    point of index [k] of a trajectory is between 0 and [3 (k + 1)], and the
    next point is higher by 3 at most. *)
Theorem trajectory_gains_at_most_3 (movies : list TMovie)
    (trajectory : list RankedLine.Point.t) (k : nat)
    (p : RankedLine.Point.t) :
  trajectory ∈ RankedLine.genreTrajectories (RankedLine.processedData movies) →
  trajectory !! k = Some p →
  0 ≤ RankedLine.Point.cumulative p ≤ 3 * (Z.of_nat k + 1)
  ∧ ∀ q, trajectory !! S k = Some q →
         RankedLine.Point.cumulative q ≤ RankedLine.Point.cumulative p + 3.
Proof.
  destruct movies as [|m ms]; [by intros ?%elem_of_nil|].
  rewrite processedData_nonempty. simpl.
  intros (g & -> & _)%list_elem_of_fmap. rewrite trajectory_points.
  intros Hp.
  destruct (points_from_bounds g _ 0 k p (λ yd, bonus_bounds _ g yd) Hp)
    as [Hc Hq].
  split; [lia|]. intros q Hq'. by apply Hq.
Qed.

Lemma trajectory_gains_at_most_3_witness :
  let movies := [movie 2001 ["A"; "B"]; movie 2000 ["A"; "B"; "C"; "D"];
                 movie 2000 ["C"; "A"]; movie 2002 ["E"]] in
  let p := {| RankedLine.Point.year := 2000;
              RankedLine.Point.cumulative := 3 |} in
  let q := {| RankedLine.Point.year := 2001;
              RankedLine.Point.cumulative := 6 |} in
  let r := {| RankedLine.Point.year := 2002;
              RankedLine.Point.cumulative := 6 |} in
  [p; q; r] ∈ RankedLine.genreTrajectories (RankedLine.processedData movies)
  ∧ [p; q; r] !! 1%nat = Some q
  ∧ 0 ≤ RankedLine.Point.cumulative q ≤ 3 * (Z.of_nat 1 + 1).
Proof.
  intros movies p q r.
  assert (Hin : [p; q; r]
                ∈ RankedLine.genreTrajectories
                    (RankedLine.processedData movies)).
  { vm_compute. left. }
  split; [exact Hin|]. split; [reflexivity|].
  exact (proj1 (trajectory_gains_at_most_3 movies [p; q; r] 1 q Hin eq_refl)).
Defined.

(** ** RankedLine.svelte: what a year awards in all *)

Lemma sum_with_ext {A : Type} (f f' : A → Z) (l : list A) :
  (∀ x, x ∈ l → f x = f' x) → sum_with f l = sum_with f' l.
Proof.
  induction l as [|x l IH]; intros Hf; [done|]. simpl.
  rewrite (Hf x) by left. rewrite IH; [done|].
  intros y ?. apply Hf. by right.
Qed.

Lemma sum_with_linear {A : Type} (a b c : Z) (f1 f2 f3 : A → Z)
    (l : list A) :
  sum_with (λ x, a * f1 x + b * f2 x + c * f3 x) l
  = a * sum_with f1 l + b * sum_with f2 l + c * sum_with f3 l.
Proof. induction l as [|x l IH]; simpl; [lia|]. rewrite IH. lia. Qed.

Lemma sum_with_zero {A : Type} (l : list A) : sum_with (λ _, 0) l = 0.
Proof. induction l as [|x l IH]; simpl; [done|]. by rewrite IH. Qed.

Lemma sum_with_swap {A B : Type} (f : A → B → Z) (l : list A)
    (l' : list B) :
  sum_with (λ x, sum_with (f x) l') l
  = sum_with (λ y, sum_with (λ x, f x y) l) l'.
Proof.
  induction l' as [|y l' IH]; simpl.
  - apply sum_with_zero.
  - rewrite <- IH. clear IH. induction l as [|x l IH]; simpl; [done|].
    rewrite IH. lia.
Qed.

Lemma sum_with_indicator (x : string) (ks : list string) :
  NoDup ks → sum_with (indicator x) ks = if decide (x ∈ ks) then 1 else 0.
Proof.
  induction 1 as [|k ks Hk Hnd IH]; [done|]. simpl. rewrite IH.
  unfold indicator.
  destruct (decide (x = k)) as [->|Hne].
  - rewrite decide_False by done. rewrite decide_True by left. done.
  - destruct (decide (x ∈ ks)).
    + rewrite decide_True by (by right). done.
    + rewrite decide_False; [done|]. by intros [?|?]%elem_of_cons.
Qed.

Lemma award_indicators (r : list Datum) (g : string) :
  NoDup (map genre r) →
  award r g
  = 3 * default 0 ((λ d, indicator (genre d) g) <$> r !! 0%nat)
    + 2 * default 0 ((λ d, indicator (genre d) g) <$> r !! 1%nat)
    + 1 * default 0 ((λ d, indicator (genre d) g) <$> r !! 2%nat).
Proof.
  unfold award, indicator.
  destruct r as [|a [|b [|c r]]]; simpl; intros Hnd;
    repeat match goal with
           | H : NoDup (_ :: _) |- _ => apply NoDup_cons in H as [? ?]
           end;
    repeat (case_decide; simpl); try done;
    try (exfalso; set_solver).
  by destruct (list_find _ r) as [[i d]|].
Qed.

Lemma sum_with_map {A B : Type} (f : B → Z) (h : A → B) (l : list A) :
  sum_with f (map h l) = sum_with (λ x, f (h x)) l.
Proof. induction l as [|x l IH]; simpl; [done|]. by rewrite IH. Qed.

Lemma sum_with_le {A : Type} (f : A → Z) (c : Z) (l : list A) :
  (∀ x, f x ≤ c) → sum_with f l ≤ c * Z.of_nat (length l).
Proof.
  intros Hf. induction l as [|x l IH]; simpl; [lia|].
  specialize (Hf x). lia.
Qed.

Lemma ranking_total (ks : list string) (r : list Datum) :
  NoDup ks → NoDup (map genre r) → (∀ d, d ∈ r → genre d ∈ ks) →
  sum_with (award r) ks = prize (length r).
Proof.
  intros Hks Hr Hin.
  rewrite (sum_with_ext _ _ _ (λ g _, award_indicators r g Hr)).
  rewrite (sum_with_linear 3 2 1).
  assert (Hone : ∀ i,
            sum_with (λ g, default 0 ((λ d, indicator (genre d) g)
                                        <$> r !! i)) ks
            = if decide (i < length r)%nat then 1 else 0).
  { intros i. destruct (r !! i) as [d|] eqn:Hi; simpl.
    - rewrite decide_True by (by eapply lookup_lt_Some).
      change (λ g, indicator (genre d) g) with (indicator (genre d)).
      rewrite sum_with_indicator by done.
      rewrite decide_True; [done|].
      by eapply Hin, list_elem_of_lookup_2.
    - rewrite decide_False by (apply lookup_ge_None in Hi; lia).
      apply sum_with_zero. }
  rewrite !Hone.
  destruct r as [|a [|b [|c r]]]; simpl; try done; repeat case_decide; lia.
Qed.

Lemma year_ranking_length (movies : list TMovie) (y : Z) :
  length (year_ranking movies y) = genres_in_year movies y.
Proof.
  unfold year_ranking, genres_in_year.
  rewrite sort_Permutation, genre_counts_entries, length_map.
  by rewrite set_of_distinct.
Qed.

Lemma year_total (movies : list TMovie) (yd : RankedLine.YearData.t) :
  yd ∈ RankedLine.yearData_of movies →
  sum_with (λ g, bonus g yd) (RankedLine.genres movies)
  = prize (genres_in_year movies (RankedLine.YearData.year yd)).
Proof.
  intros Hyd.
  rewrite (sum_with_ext _ _ _ (λ g _, bonus_yearData movies g yd Hyd)).
  rewrite <- year_ranking_length.
  destruct (sorted_genre_counts_is_tally
              (labels_of_year movies (RankedLine.YearData.year yd)))
    as (Hnd & Hmem & _).
  apply ranking_total.
  - rewrite RankedLine_genres_set. apply NoDup_set_of.
  - exact Hnd.
  - intros d Hd. rewrite RankedLine_genres_set, elem_of_set_of.
    assert (Hg : genre d ∈ labels_of_year movies (RankedLine.YearData.year yd)).
    { apply Hmem, list_elem_of_fmap. by exists d. }
    unfold labels_of_year in Hg.
    apply elem_of_flat_map_genres in Hg as (m & Hm & Hg).
    apply list_elem_of_filter in Hm as [_ Hm].
    apply elem_of_flat_map_genres. by exists m.
Qed.

Lemma prize_le (n : nat) : prize n ≤ 6.
Proof. destruct n as [|[|[|n]]]; simpl; lia. Qed.

(** X18. Every year awards 3, 2 and 1 once each, to genres of that year:
    at the point of index [k], the scores of all the genres together are
    the sum over the first [k + 1] years of 6 for a year with three or more
    distinct genres, 5 with two, 3 with one and 0 with none; so they are
    [6 (k + 1)] at most. *)
Theorem year_awards_shared (movies : list TMovie) (k : nat) :
  let pd := RankedLine.processedData movies in
  (k < length (RankedLine.years pd))%nat →
  sum_with (λ trajectory,
              default 0 (RankedLine.Point.cumulative <$> trajectory !! k))
           (RankedLine.genreTrajectories pd)
  = sum_with (λ y, prize (genres_in_year movies y))
             (take (S k) (RankedLine.years pd))
  ∧ sum_with (λ trajectory,
                default 0 (RankedLine.Point.cumulative <$> trajectory !! k))
             (RankedLine.genreTrajectories pd)
    ≤ 6 * (Z.of_nat k + 1).
Proof.
  intros pd Hk.
  assert (Heq : sum_with (λ trajectory,
                   default 0 (RankedLine.Point.cumulative
                                <$> trajectory !! k))
                  (RankedLine.genreTrajectories pd)
                = sum_with (λ y, prize (genres_in_year movies y))
                    (take (S k) (RankedLine.years pd))).
  { subst pd. destruct movies as [|m ms]; [simpl in Hk; lia|].
    rewrite processedData_nonempty in Hk |- *. simpl in Hk |- *.
    set (yds := RankedLine.yearData_of (m :: ms)) in *.
    rewrite length_map in Hk.
    rewrite sum_with_map.
    rewrite (sum_with_ext _
               (λ g, sum_with (λ yd, bonus g yd) (take (S k) yds))).
    - rewrite sum_with_swap. rewrite <- fmap_take.
      change (RankedLine.YearData.year <$> take (S k) yds)
        with (map RankedLine.YearData.year (take (S k) yds)).
      rewrite sum_with_map. apply sum_with_ext.
      intros yd Hyd. apply year_total. by apply (subseteq_take (S k)).
    - intros g _. rewrite trajectory_points.
      destruct (lookup_lt_is_Some_2 (points_from g 0 yds) k) as [p Hp].
      { rewrite <- (length_map RankedLine.Point.year), points_from_years.
        by rewrite length_map. }
      rewrite Hp. simpl. rewrite (points_from_lookup _ _ _ _ _ Hp). done. }
  split; [exact Heq|]. rewrite Heq.
  etrans; [apply (sum_with_le _ 6); intros y; apply prize_le|].
  rewrite length_take. lia.
Qed.

Lemma year_awards_shared_witness :
  let movies := [movie 2001 ["A"; "B"]; movie 2000 ["A"; "B"; "C"; "D"];
                 movie 2000 ["C"; "A"]; movie 2002 ["E"]] in
  let pd := RankedLine.processedData movies in
  (1 < length (RankedLine.years pd))%nat
  ∧ sum_with (λ trajectory,
                default 0 (RankedLine.Point.cumulative <$> trajectory !! 1%nat))
             (RankedLine.genreTrajectories pd) = 11
  ∧ sum_with (λ y, prize (genres_in_year movies y))
             (take 2 (RankedLine.years pd)) = 11.
Proof.
  intros movies pd.
  assert (Hk : (1 < length (RankedLine.years pd))%nat) by (vm_compute; lia).
  split; [exact Hk|]. split; [reflexivity|].
  etrans; [symmetry; exact (proj1 (year_awards_shared movies 1 Hk))|].
  reflexivity.
Defined.

(** ** The page and the tracker: the year headers read back *)








Lemma groups_by_year (movies : list TMovie) :
  let groups := JS.sort Scroll.by_group_year (D3.group getFullYear movies) in
  StronglySorted Z.lt (map fst groups)
  ∧ map fst groups ≡ₚ JS.set_of (map year movies)
  ∧ ∀ y group, (y, group) ∈ groups → group = filter (λ m, year m = y) movies.
Proof.
  intros groups. subst groups.
  assert (Hperm : map fst (JS.sort Scroll.by_group_year
                             (D3.group getFullYear movies))
                  ≡ₚ JS.set_of (map year movies)).
  { rewrite sort_Permutation, group_entries, map_map. simpl.
    by rewrite map_id. }
  split_and!; [|done|].
  - apply Sorted_le_NoDup_lt; [|rewrite Hperm; apply NoDup_set_of].
    apply (Sorted_fmap fst (λ a b, a.1 ≤ b.1) Z.le); [done|].
    eapply Sorted_weaken; [|apply sort_Sorted].
    + intros a b. unfold Scroll.by_group_year. lia.
    + intros a b. unfold Scroll.by_group_year. lia.
  - intros y group. rewrite sort_Permutation, group_entries.
    intros (k & [= -> ->] & _)%list_elem_of_fmap. done.
Qed.

Lemma elem_of_scroll_years (movies : list TMovie) (y : Z) :
  y ∈ Scroll.years movies ↔ ∃ m, m ∈ movies ∧ year m = y.
Proof.
  unfold Scroll.years, Scroll.moviesByYear.
  destruct movies as [|m0 ms]; simpl length; cbn [Nat.eqb].
  - split; [by intros ?%elem_of_nil|by intros (? & ?%elem_of_nil & _)].
  - destruct (groups_by_year (m0 :: ms)) as (_ & Hperm & _).
    cbv zeta in Hperm |- *.
    rewrite Hperm, elem_of_set_of, list_elem_of_fmap.
    split; intros (m' & ? & ?); by exists m'.
Qed.

(** X19. The years of the scrolly are the years of the records, each once
    and in increasing order, and the year the component starts from (the
    current year set by the effect while it is still 0) is the earliest
    year of the records. *)
Theorem scroll_starts_at_earliest_year (movies : list TMovie) :
  StronglySorted Z.lt (Scroll.years movies)
  ∧ (∀ y, y ∈ Scroll.years movies ↔ ∃ m, m ∈ movies ∧ year m = y)
  ∧ ∀ m, m ∈ movies →
      Scroll.initialYear movies true true 0 ≤ year m
      ∧ ∃ m0, m0 ∈ movies ∧ year m0 = Scroll.initialYear movies true true 0.
Proof.
  assert (Hsorted : StronglySorted Z.lt (Scroll.years movies)).
  { unfold Scroll.years, Scroll.moviesByYear.
    destruct movies as [|m0 ms]; [constructor|].
    apply (groups_by_year (m0 :: ms)). }
  split_and!; [done|apply elem_of_scroll_years|].
  intros m Hm.
  assert (Hy : year m ∈ Scroll.years movies)
    by (apply elem_of_scroll_years; by exists m).
  unfold Scroll.initialYear.
  destruct movies as [|m' ms]; [by apply elem_of_nil in Hm|].
  simpl length. cbn [Nat.eqb negb orb].
  destruct (Scroll.years (m' :: ms)) as [|y0 ys] eqn:Hyears;
    [by apply elem_of_nil in Hy|].
  simpl. split.
  - apply StronglySorted_inv in Hsorted as [_ Hall].
    apply elem_of_cons in Hy as [->|Hy]; [done|].
    rewrite Forall_forall in Hall. specialize (Hall _ Hy). lia.
  - apply (elem_of_scroll_years (m' :: ms)). rewrite Hyears. left.
Qed.




(** ** The 3D bar scene: the dataset that is loaded *)














(** ** GenreHeatmap.svelte: the order among equal row totals *)








(** ** RankBar.svelte: the domain of the widths *)

Lemma ranked_head_greatest (data : list Datum) (top d : Datum) :
  head (RankBar.ranked data) = Some top → d ∈ data →
  (count d ≤ count top)%nat.
Proof.
  intros Hhead Hd.
  assert (Hs : StronglySorted (λ a b, (count b ≤ count a)%nat)
                              (RankBar.ranked data)).
  { apply Sorted_StronglySorted; [intros a b c; lia|].
    eapply Sorted_weaken; [|apply sort_Sorted, by_count_desc_total].
    intros a b. unfold by_count_desc. simpl. lia. }
  rewrite <- ranked_Permutation in Hd.
  destruct (RankBar.ranked data) as [|x l]; [done|].
  injection Hhead as ->.
  apply StronglySorted_inv in Hs as [_ Hall].
  apply elem_of_cons in Hd as [->|Hd]; [done|].
  rewrite Forall_forall in Hall. by apply Hall.
Qed.

(** X24. The widths of the bars are scaled to the first bar: the upper end
    of the domain of [x] is the count of the first datum of the ranking
    (0 without data), and the count of every datum lies in the domain. *)
Theorem widths_scaled_to_first_bar (data : list Datum) :
  (RankBar.xDomain data).1 = 0
  ∧ (RankBar.xDomain data).2
    = default 0 ((λ d, Z.of_nat (count d)) <$> head (RankBar.ranked data))
  ∧ ∀ d, d ∈ data → 0 ≤ Z.of_nat (count d) ≤ (RankBar.xDomain data).2.
Proof.
  assert (Hmax : (RankBar.xDomain data).2
                 = default 0 ((λ d, Z.of_nat (count d))
                                <$> head (RankBar.ranked data))).
  { unfold RankBar.xDomain. cbn [snd].
    destruct (RankBar.ranked data) as [|top l] eqn:Hr; [done|].
    destruct (max_ge (map (λ d, Z.of_nat (count d)) (top :: l))
                     (Z.of_nat (count top))) as (m & Hm & Hle); [left|].
    rewrite Hm. simpl.
    apply max_elem_of, list_elem_of_fmap in Hm as (d & -> & Hd).
    rewrite <- Hr, ranked_Permutation in Hd.
    pose proof (ranked_head_greatest data top d) as Htop.
    rewrite Hr in Htop. specialize (Htop eq_refl Hd). lia. }
  split_and!; [done|exact Hmax|].
  intros d Hd. rewrite Hmax.
  destruct (RankBar.ranked data) as [|top l] eqn:Hr.
  - rewrite <- ranked_Permutation, Hr in Hd. by apply elem_of_nil in Hd.
  - simpl. pose proof (ranked_head_greatest data top d) as Htop.
    rewrite Hr in Htop. specialize (Htop eq_refl Hd). lia.
Qed.

(** ** The 3D bar scene: the scroll offset with any dataset *)

Lemma step_scroll_bounded (movieData : gmap string Z)
    (s : BarScene.State) (e : BarScene.Event) :
  scroll_bounded movieData s →
  scroll_bounded movieData (BarScene.step movieData s e).
Proof.
  unfold scroll_bounded, overflow. intros [Hs Hmax].
  destruct e as [x|x| | |k|]; simpl; try done.
  - unfold BarScene.mousemove. destruct (BarScene.isDragging s); simpl; lia.
  - unfold BarScene.keydown. repeat case_decide; simpl; lia.
  - lia.
Qed.

(** X25. With any dataset and after any sequence of pointer, key and load
    events, the scroll offset lies between 0 and the width of the bars
    beyond the viewport ([150] per category minus [1200]), in whichever
    order the two are: with fewer than 8 categories the offset can become
    negative, but never below that (negative) width, and it is never
    positive then; a move of the pointer during a drag always leaves it
    at 0 or above. *)
Theorem scroll_offset_bounded (movieData : gmap string Z)
    (events : list BarScene.Event) :
  Z.min 0 (overflow movieData)
    ≤ BarScene.scrollOffset (BarScene.run movieData events)
    ≤ Z.max 0 (overflow movieData)
  ∧ ∀ x y, 0 ≤ BarScene.scrollOffset
                 (BarScene.run movieData
                    (events ++ [BarScene.MouseDown x; BarScene.MouseMove y])).
Proof.
  assert (Hrun : ∀ events,
            scroll_bounded movieData (BarScene.run movieData events)).
  { clear events. intros events. unfold BarScene.run.
    induction events as [|e events IH] using rev_ind.
    - unfold scroll_bounded. simpl. lia.
    - rewrite foldl_app. simpl. by apply step_scroll_bounded. }
  split; [apply Hrun|].
  intros x y. unfold BarScene.run. rewrite foldl_app. simpl.
  unfold BarScene.mousemove. simpl. lia.
Qed.

(** ** Scroll.svelte: the window tally as a sum of single-year tallies *)

Lemma tally_count_entries (labels : list string) (t : list Datum)
    (g : string) :
  NoDup (map genre t) →
  (∀ d, d ∈ t → count d = occurrences (genre d) labels) →
  tally_count t g
  = if decide (g ∈ map genre t) then occurrences g labels else 0%nat.
Proof.
  unfold tally_count.
  induction t as [|d t IH]; intros Hnd Hcount; [done|]. simpl in *.
  apply NoDup_cons in Hnd as [Hd Hnd].
  rewrite IH by (done || intros d' ?; apply Hcount; by right).
  destruct (decide (genre d = g)) as [<-|Hne].
  - rewrite (decide_True (P := genre d ∈ genre d :: map genre t)) by left.
    rewrite (decide_False (P := genre d ∈ map genre t)) by done.
    rewrite (Hcount d) by left. lia.
  - destruct (decide (g ∈ map genre t)) as [Hin|Hin].
    + by rewrite (decide_True (P := g ∈ genre d :: map genre t))
        by (by right).
    + rewrite (decide_False (P := g ∈ genre d :: map genre t)); [done|].
      intros [?|?]%elem_of_cons; done.
Qed.

Lemma tally_count_occurrences (labels : list string) (t : list Datum)
    (g : string) :
  is_tally_of labels t → tally_count t g = occurrences g labels.
Proof.
  intros (Hnd & Hmem & Hcount & _).
  rewrite (tally_count_entries labels) by done.
  case_decide as Hin; [done|].
  destruct (occurrences g labels) eqn:Hocc; [done|].
  exfalso. apply Hin, Hmem, occurrences_pos. lia.
Qed.

Lemma sum_list_with_ext_in {A : Type} (f h : A → nat) (l : list A) :
  (∀ x, x ∈ l → f x = h x) → sum_list_with f l = sum_list_with h l.
Proof.
  induction l as [|x l IH]; intros Hf; [done|]. simpl.
  rewrite (Hf x) by left. rewrite IH; [done|].
  intros y ?. apply Hf. by right.
Qed.

Lemma sum_list_with_add {A : Type} (f h : A → nat) (l : list A) :
  sum_list_with (λ x, f x + h x)%nat l
  = (sum_list_with f l + sum_list_with h l)%nat.
Proof. induction l as [|x l IH]; simpl; [done|]. rewrite IH. lia. Qed.

Lemma sum_one_year (a b : Z) (c : nat) (i n : nat) :
  sum_list_with (λ k, if decide (a = b + Z.of_nat k) then c else 0%nat)
                (seq i n)
  = if decide (b + Z.of_nat i ≤ a < b + Z.of_nat i + Z.of_nat n)
    then c else 0%nat.
Proof.
  revert i. induction n as [|n IH]; intros i; simpl.
  - by rewrite decide_False by lia.
  - rewrite IH. repeat case_decide; lia.
Qed.

Lemma window_year_occurrences (movies : list TMovie) (y : Z) (g : string) :
  occurrences g (labels_of_window movies y)
  = sum_list_with
      (λ k, occurrences g (labels_of_year movies (y - 10 + Z.of_nat k)))
      (seq 0 11).
Proof.
  unfold labels_of_window, labels_of_year.
  induction movies as [|m movies IH].
  { simpl. done. }
  rewrite filter_cons.
  rewrite (sum_list_with_ext_in _
             (λ k, Nat.add
                     (if decide (year m = y - 10 + Z.of_nat k)
                      then occurrences g (genres m) else 0%nat)
                     (occurrences g
                        (flat_map genres
                           (filter (λ m, year m = y - 10 + Z.of_nat k)
                                   movies))))).
  - rewrite sum_list_with_add, <- IH, sum_one_year.
    destruct (decide (y - 10 ≤ year m ∧ year m ≤ y)) as [Hin|Hout].
    + rewrite decide_True by lia. simpl. by rewrite occurrences_app.
    + by rewrite decide_False by lia.
  - intros k _. rewrite filter_cons. case_decide; [|done].
    simpl. by rewrite occurrences_app.
Qed.

(** X26. The window tally adds up the single-year tallies of its eleven
    years: for an end year above 10 or below 0 (so that the year 0, for
    which the single-year tally is always empty, is not in the window), the
    count the window tally shows for a category is the sum of the counts
    the single-year tallies of the years [endYear - 10] to [endYear] show
    for it. *)
Theorem window_tally_sums_year_tallies (movies : list TMovie) (y : Z)
    (g : string) :
  y < 0 ∨ 10 < y →
  tally_count (Scroll.aggregateYearRange movies y) g
  = sum_list_with
      (λ k, tally_count (Scroll.aggregateYear movies (y - 10 + Z.of_nat k)) g)
      (seq 0 11).
Proof.
  intros Hy.
  rewrite aggregateYearRange_unfold by lia.
  rewrite (tally_count_occurrences (labels_of_window movies y))
    by apply sorted_genre_counts_is_tally.
  rewrite window_year_occurrences.
  apply sum_list_with_ext_in. intros k Hk%elem_of_seq.
  rewrite aggregateYear_unfold by lia.
  by rewrite (tally_count_occurrences
                (labels_of_year movies (y - 10 + Z.of_nat k)))
    by apply sorted_genre_counts_is_tally.
Qed.

Lemma window_tally_sums_year_tallies_witness :
  let movies := [movie 1989 ["Drama"]; movie 1990 ["Comedy"; "Drama"];
                 movie 2000 ["Action"; "Comedy"]; movie 2001 ["Drama"]] in
  (2000 < 0 ∨ 10 < 2000)
  ∧ tally_count (Scroll.aggregateYearRange movies 2000) "Comedy" = 2%nat
  ∧ sum_list_with
      (λ k, tally_count
              (Scroll.aggregateYear movies (2000 - 10 + Z.of_nat k)) "Comedy")
      (seq 0 11) = 2%nat.
Proof.
  intros movies.
  assert (Hy : 2000 < 0 ∨ 10 < 2000) by (right; lia).
  split; [exact Hy|]. split; [reflexivity|].
  etrans;
    [symmetry; exact (window_tally_sums_year_tallies movies 2000 "Comedy" Hy)|].
  reflexivity.
Defined.
